(** * Company-name matching of the market-cap scripts

    A shallow embedding of [scripts/compare_market_cap_eu.py] and
    [scripts/refresh_market_cap_missing.py]: name normalisation, suffix
    stripping, key derivation, the reference index, the ordered match
    rules of [row_exists], and the refresh run that carries annotation
    columns over.

    A Python [str] is a sequence of Unicode code points: here a list of
    [N].  What the scripts take from the interpreter (white space, case
    mapping, NFKD, combining classes, digits) is a [Runtime]; everything
    else is translated function by function. *)

From Stdlib Require Import NArith String Ascii.
From stdpp Require Import gmap strings list fin_maps.

Local Open Scope N_scope.

(** ** Strings *)

Abbreviation char := N (only parsing).
Abbreviation str := (list N) (only parsing).

(** The code points of an ASCII literal. *)
Definition py (s : string) : str :=
  N_of_ascii <$> list_ascii_of_string s.

(** What the scripts use of the interpreter and of [unicodedata]. *)
Class Runtime := {
  (** [str.isspace] on one code point; also the class [\s] of [re]. *)
  isspace : char → bool;
  (** [str.lower] and [str.upper]. *)
  lower : str → str;
  upper : str → str;
  (** [unicodedata.normalize("NFKD", s)]. *)
  nfkd : str → str;
  (** [unicodedata.combining(ch)]: the canonical combining class. *)
  combining : char → N;
  (** [str.isdigit] on one code point. *)
  isdigit : char → bool;
  lower_nil : lower [] = [];
  upper_nil : upper [] = [];
  nfkd_nil : nfkd [] = [];
  (** Case mapping never produces white space out of none. *)
  upper_nospace s :
    forallb (λ c, negb (isspace c)) s = true →
    forallb (λ c, negb (isspace c)) (upper s) = true;
}.

Section Strings.
Context {rt : Runtime}.

(** [s.lstrip()], [s.rstrip()] and [s.strip()] *)
Fixpoint lstrip (s : str) : str :=
  match s with
  | [] => []
  | c :: s' => if isspace c then lstrip s' else s
  end.

Definition rstrip (s : str) : str := reverse (lstrip (reverse s)).

Definition strip (s : str) : str := rstrip (lstrip s).

(** [s.isdigit()]: at least one code point, all of them digits. *)
Definition str_isdigit (s : str) : bool :=
  match s with
  | [] => false
  | _ => forallb isdigit s
  end.

(** [s.replace(c, r)] for a one-character [c]. *)
Definition replace (c : char) (r : str) (s : str) : str :=
  flat_map (λ x, if x =? c then r else [x]) s.

(** [re.sub] of a pattern [[class]+]: every maximal run of code points
    of the class becomes [r].  [in_run] tells that the previous code
    point belonged to a run. *)
Fixpoint sub_runs (cls : char → bool) (r : str) (in_run : bool) (s : str) : str :=
  match s with
  | [] => []
  | c :: s' =>
      if cls c then (if in_run then [] else r) ++ sub_runs cls r true s'
      else c :: sub_runs cls r false s'
  end.

(** [s.split(sep)] with an explicit one-character separator. *)
Fixpoint split (sep : char) (s : str) : list str :=
  match s with
  | [] => [[]]
  | c :: s' =>
      if c =? sep then [] :: split sep s'
      else match split sep s' with
           | w :: ws => (c :: w) :: ws
           | [] => [[c]]
           end
  end.

(** The first piece of a split with [maxsplit=1]: what stands before the
    first code point of the class. *)
Fixpoint before (cls : char → bool) (s : str) : str :=
  match s with
  | [] => []
  | c :: s' => if cls c then [] else c :: before cls s'
  end.

(** [c in s] *)
Definition contains (c : char) (s : str) : bool :=
  existsb (N.eqb c) s.

(** [sep.join(l)] *)
Fixpoint join (sep : str) (l : list str) : str :=
  match l with
  | [] => []
  | [w] => w
  | w :: ws => w ++ sep ++ join sep ws
  end.

End Strings.

(** Code points the scripts name. *)
Definition SPACE : char := 32.
Definition AMP : char := 38.
Definition DOT : char := 46.
Definition COLON : char := 58.
Definition SLASH : char := 47.
Definition DASH : char := 45.

(** ** compare_market_cap_eu.py *)

Module Compare.

Definition STOPWORDS : gset str :=
  list_to_set (py <$> [
    "and"; "of"; "the"; "de"; "la"; "le"; "di"; "del"; "della"; "van";
    "von"; "der"; "den"; "du"; "da"; "dos"; "das"; "do"; "y"; "et"
  ]%string).

Definition GENERIC_TOKENS : gset str :=
  list_to_set (py <$> [
    "bank"; "banco"; "banque"; "insurance"; "assurance"; "reinsurance";
    "capital"; "financial"; "finance"; "invest"; "investments";
    "investment"; "partners"; "partner"; "services"; "service";
    "solutions"; "technology"; "technologies"; "systems"; "system";
    "international"; "industries"; "industry"; "energy"; "resources";
    "communications"; "telecom"; "telecommunications"; "pharma";
    "pharmaceutical"; "holding"; "holdings"; "group"; "company";
    "companies"; "corp"; "corporation"
  ]%string).

Definition SUFFIX_TOKENS : gset str :=
  list_to_set (py <$> [
    "se"; "sa"; "plc"; "nv"; "ag"; "spa"; "oyj"; "ab"; "as"; "asa";
    "gmbh"; "kgaa"; "kg"; "sarl"; "bv"; "co"; "company"; "corp";
    "corporation"; "inc"; "ltd"; "limited"; "holding"; "holdings"; "group"
  ]%string).

Definition SUFFIX_PATTERNS : list (list str) :=
  List.map (List.map py) [
    ["s"; "p"; "a"];
    ["s"; "a"];
    ["s"; "e"];
    ["a"; "s"]
  ]%string.

Definition APOSTROPHES : list char :=
  [39; 8217; 8216; 96; 180].

Section Normalizer.
Context {rt : Runtime}.

(** [_NON_ALNUM_RE]: the class [[^0-9a-z]]. *)
Definition non_alnum (c : char) : bool :=
  negb ((48 <=? c) && (c <=? 57) || (97 <=? c) && (c <=? 122)).

Definition _strip_diacritics (s : str) : str :=
  filter (λ ch, combining ch = 0) (nfkd s).

Definition clean_tokens (name : str) : list str :=
  let s := _strip_diacritics (strip name) in
  let s := lower s in
  let s := replace AMP (py " and ") s in
  let s := foldl (λ s a, replace a [] s) s APOSTROPHES in
  let s := sub_runs non_alnum [SPACE] false s in
  let s := strip (sub_runs isspace [SPACE] false s) in
  filter (λ t, t ≠ []) (split SPACE s).

End Normalizer.

(** *** strip_suffix *)

(** [t[-n:]] and [t[:-n]] for [0 < n]. *)
Definition tail_slice {A} (n : nat) (t : list A) : list A :=
  drop (length t - n) t.

Definition head_slice {A} (n : nat) (t : list A) : list A :=
  take (length t - n) t.

(** The [for pat in SUFFIX_PATTERNS] scan: the first pattern, in table
    order, that the tail of [t] equals. *)
Definition matching_pattern (t : list str) : option (list str) :=
  List.find
    (λ pat, bool_decide (length pat ≤ length t)%nat
            && bool_decide (tail_slice (length pat) t = pat))
    SUFFIX_PATTERNS.

(** One run of the body of the [while]: the new [t] and [changed]. *)
Definition strip_pass (t : list str) : list str * bool :=
  match matching_pattern t with
  | Some pat => (head_slice (length pat) t, true)
  | None =>
      match last t with
      | Some x =>
          if bool_decide (x ∈ SUFFIX_TOKENS) then (head_slice 1 t, true)
          else (t, false)
      | None => (t, false)
      end
  end.

(** [while t and changed] *)
Definition strip_cond (st : list str * bool) : bool :=
  bool_decide (st.1 ≠ []) && st.2.

(** The loop with a budget of body runs: the final state and the number
    of runs of the body, or [None] when the budget does not suffice. *)
Fixpoint strip_loop (fuel : nat) (st : list str * bool) : option ((list str * bool) * nat) :=
  if strip_cond st then
    match fuel with
    | O => None
    | S fuel' =>
        match strip_loop fuel' (strip_pass st.1) with
        | Some (st', n) => Some (st', S n)
        | None => None
        end
    end
  else Some (st, O).

(** [strip_suffix] with an explicit budget. *)
Definition strip_suffix_fuel (fuel : nat) (tokens : list str) : option (list str) :=
  match tokens with
  | [] => Some []
  | _ =>
      match strip_loop fuel (tokens, true) with
      | Some ((t, _), _) => Some (match t with [] => tokens | _ => t end)
      | None => None
      end
  end.

(** [strip_suffix]: as many body runs as there are tokens always suffice
    (lemma [strip_suffix_fuel_enough]). *)
Definition strip_suffix (tokens : list str) : list str :=
  default tokens (strip_suffix_fuel (length tokens) tokens).

Definition norm_str (tokens : list str) : str :=
  join [SPACE] (strip_suffix tokens).

Definition compact_str (tokens : list str) : str :=
  join [] (strip_suffix tokens).

(** [acronym]: first code point of every token that is neither empty,
    nor all digits, nor a stop word. *)
Section Acronym.
Context {rt : Runtime}.

Definition acronym (tokens : list str) : str :=
  flat_map
    (λ tok,
       match tok with
       | [] => []
       | c :: _ =>
           if str_isdigit tok || bool_decide (tok ∈ STOPWORDS) then []
           else [c]
       end)
    tokens.

(** [_SEP_RE] of [symbol_base]: the class [[.:/\s]]. *)
Definition symbol_sep (c : char) : bool :=
  (c =? DOT) || (c =? COLON) || (c =? SLASH) || isspace c.

Definition symbol_base (symbol : str) : str :=
  let s := strip symbol in
  match s with
  | [] => []
  | _ =>
      let s := before symbol_sep s in
      before (N.eqb DASH) s
  end.

End Acronym.

(** *** The reference index *)

Record index := Index {
  existing_norm : gset str;
  existing_compact : gset str;
  token_index : gmap str (gset str);
}.

(** The value under ["c"] of a record of the reports index.  Of a value
    that is not a string the script only takes its truth value
    ([not name]) and its text ([str(name)]). *)
Inductive jname :=
  | JString (s : str)
  | JOther (truthy : bool) (text : str).

(** An element of the parsed JSON array: something that is not an
    object, or an object with or without the key ["c"]. *)
Inductive entry :=
  | NotDict
  | Dict (c : option jname).

Definition truthy (n : jname) : bool :=
  match n with
  | JString s => bool_decide (s ≠ [])
  | JOther b _ => b
  end.

Definition to_str (n : jname) : str :=
  match n with
  | JString s => s
  | JOther _ text => text
  end.

(** A record without a name: nothing under ["c"], or a value that is
    blank, that is false in a condition (the empty string, [null], and
    the like). *)
Definition missing_or_blank (e : entry) : bool :=
  match e with
  | Dict None => true
  | Dict (Some (JString [])) => true
  | Dict (Some (JOther false _)) => true
  | _ => false
  end.

(** [token_index.setdefault(tok, set()).add(ns)] *)
Definition register (ns : str) (ti : gmap str (gset str)) (tok : str) : gmap str (gset str) :=
  <[tok := default ∅ (ti !! tok) ∪ {[ns]}]> ti.

Section Index.
Context {rt : Runtime}.

(** The body of the loop of [load_existing_companies] past its two
    [continue]s. *)
Definition add_company (idx : index) (name : str) : index :=
  let toks := clean_tokens name in
  let ns := norm_str toks in
  let cs := compact_str toks in
  {| existing_norm := existing_norm idx ∪ {[ns]};
     existing_compact := existing_compact idx ∪ {[cs]};
     token_index := foldl (register ns) (token_index idx) (strip_suffix toks) |}.

Definition load_step (idx : index) (row : entry) : index :=
  match row with
  | NotDict => idx
  | Dict None => idx
  | Dict (Some name) =>
      if truthy name then add_company idx (to_str name) else idx
  end.

Definition load_existing_companies (data : list entry) : index :=
  foldl load_step (Index ∅ ∅ ∅) data.

End Index.

(** *** Candidate rows *)

(** A row of [csv.DictReader]: the cells under the field names ([None]
    for the fields a short line lacks) and, for a line longer than the
    header, the surplus cells kept under the key [None]. *)
Record row := Row {
  fields : gmap str (option str);
  rest : option (list str);
}.

(** [row.get(key, "") or ""] *)
Definition get_or_empty (r : row) (key : str) : str :=
  match fields r !! key with
  | Some (Some s) => s
  | _ => []
  end.

Section MatchEngine.
Context {rt : Runtime}.

(** 1) exact (normalized) company name match *)
Definition rule_exact (stripped : list str) (idx : index) : bool :=
  let ns := join [SPACE] stripped in
  let cs := join [] stripped in
  bool_decide (ns ∈ existing_norm idx) || bool_decide (cs ∈ existing_compact idx).

(** 2) symbol/ticker base match *)
Definition rule_symbol (r : row) (idx : index) : bool :=
  let sym := symbol_base (get_or_empty r (py "Symbol")) in
  match sym with
  | [] => false
  | _ =>
      let sym_toks := clean_tokens sym in
      match sym_toks with
      | [] => false
      | _ =>
          let sym_ns := norm_str sym_toks in
          let sym_cs := compact_str sym_toks in
          if bool_decide (sym_ns ∈ existing_norm idx)
             || bool_decide (sym_cs ∈ existing_compact idx)
          then true
          else
            match strip_suffix sym_toks with
            | [tok] => bool_decide (is_Some (token_index idx !! tok))
            | _ => false
            end
      end
  end.

(** 3) single-token containment *)
Definition rule_single_token (stripped : list str) (idx : index) : bool :=
  match stripped with
  | [tok] => bool_decide (is_Some (token_index idx !! tok))
  | _ => false
  end.

(** 4) acronym match *)
Definition rule_acronym (toks : list str) (idx : index) : bool :=
  let acr := acronym toks in
  bool_decide (3 ≤ length acr)%nat
  && (bool_decide (acr ∈ existing_norm idx)
      || bool_decide (is_Some (token_index idx !! acr))).

Definition key_tokens (stripped : list str) : list str :=
  filter
    (λ t, ((5 ≤ length t)%nat ∧ t ∉ GENERIC_TOKENS) ∧ t ∉ STOPWORDS)
    stripped.

(** The loop over [key_tokens], with its [break]. *)
Fixpoint collect (ti : gmap str (gset str)) (keys : list str) (candidates : gset str) : gset str :=
  match keys with
  | [] => candidates
  | t :: keys' =>
      let candidates := candidates ∪ default ∅ (ti !! t) in
      if bool_decide (5 < size candidates)%nat then candidates
      else collect ti keys' candidates
  end.

(** 5) key-token disambiguation *)
Definition rule_key_token (stripped : list str) (idx : index) : bool :=
  bool_decide (size (collect (token_index idx) (key_tokens stripped) ∅) = 1%nat).

Definition row_exists (r : row) (idx : index) : bool :=
  let name := get_or_empty r (py "Name") in
  let toks := clean_tokens name in
  let stripped := strip_suffix toks in
  if rule_exact stripped idx then true
  else if rule_symbol r idx then true
  else if rule_single_token stripped idx then true
  else if rule_acronym toks idx then true
  else if rule_key_token stripped idx then true
  else false.

(** The loop of [main]: the rows that are not found, in input order, and
    the number of those that are. *)
Definition main_loop (mc_rows : list row) (idx : index) : list row * nat :=
  foldl
    (λ '(missing, matched) r,
       if row_exists r idx then (missing, S matched)
       else (missing ++ [r], matched))
    ([], O) mc_rows.

End MatchEngine.

End Compare.

(** ** CSV files

    A file is the sequence of records that [csv.reader] yields and that
    [csv.writer] writes, the header first; a blank line is the empty
    record. *)

Abbreviation csvfile := (list (list str)) (only parsing).

Section Csv.
Import Compare.

(** [dict(zip(fieldnames, line))], completed as [csv.DictReader] does. *)
Definition dict_row (fieldnames : list str) (line : list str) : row :=
  let d := foldl (λ d kv, <[kv.1 := Some kv.2]> d) ∅ (zip fieldnames line) in
  let lf := length fieldnames in
  let lr := length line in
  if bool_decide (lf < lr)%nat then Row d (Some (drop lf line))
  else Row (foldl (λ d key, <[key := None]> d) d (drop lr fieldnames)) None.

(** [read_csv] and [read_market_cap_rows]: the field names ([[]] for a
    file without a first record) and the rows; [DictReader] skips empty
    records. *)
Definition read_csv (f : csvfile) : list str * list row :=
  match f with
  | [] => ([], [])
  | header :: lines =>
      (header, dict_row header <$> filter (λ line, line ≠ []) lines)
  end.

(** The record [csv.DictWriter] writes for a row with
    [extrasaction="ignore"]: a missing key gives [restval = ""], and
    [None] is written as the empty cell. *)
Definition cells (fieldnames : list str) (r : row) : list str :=
  get_or_empty r <$> fieldnames.

(** [write_csv] and [write_rows] *)
Definition write_csv (fieldnames : list str) (rows : list row) : csvfile :=
  fieldnames :: (cells fieldnames <$> rows).

End Csv.

(** ** compare_market_cap_eu.py, [main]

    From the candidate file and the parsed reports index to the file
    written: the rows that are not found, under the columns of the
    candidate file. *)

Module CompareMain.
Import Compare.

Section Main.
Context {rt : Runtime}.

Definition main (market : csvfile) (data : list entry) : csvfile :=
  let idx := load_existing_companies data in
  let '(fieldnames, mc_rows) := read_csv market in
  let '(missing, matched) := main_loop mc_rows idx in
  write_csv fieldnames missing.

End Main.

End CompareMain.

(** ** refresh_market_cap_missing.py *)

Module Refresh.
Import Compare.

Section Refresh.
Context {rt : Runtime}.

(** The [for sep in (".", ":", "/", " ")] loop with its [break]. *)
Fixpoint cut_first_sep (seps : list char) (s : str) : str :=
  match seps with
  | [] => s
  | sep :: seps' =>
      if contains sep s then before (N.eqb sep) s
      else cut_first_sep seps' s
  end.

Definition symbol_base (symbol : str) : str :=
  let s := strip symbol in
  match s with
  | [] => []
  | _ =>
      let s := cut_first_sep [DOT; COLON; SLASH; SPACE] s in
      let s := if contains DASH s then before (N.eqb DASH) s else s in
      upper (strip s)
  end.

Definition norm_name (name : str) : str :=
  let toks := clean_tokens name in
  let toks := strip_suffix toks in
  join [SPACE] toks.

Definition row_key (r : row) : str * str :=
  (norm_name (get_or_empty r (py "Name")),
   symbol_base (get_or_empty r (py "Symbol"))).

(** [{col: (r.get(col, "") or "") for col in extra_cols}] *)
Definition annotation (extra_cols : list str) (r : row) : gmap str str :=
  foldl (λ d col, <[col := get_or_empty r col]> d) ∅ extra_cols.

(** The body of the loop that fills [annotations]. *)
Definition annotate (extra_cols : list str) (annotations : gmap (str * str) (gmap str str)) (r : row) : gmap (str * str) (gmap str str) :=
  let k := row_key r in
  if bool_decide (k = ([], [])) then annotations
  else
    match annotations !! k with
    | Some _ => annotations
    | None => <[k := annotation extra_cols r]> annotations
    end.

(** [out_row.setdefault(col, "")] *)
Definition setdefault (d : gmap str (option str)) (col : str) : gmap str (option str) :=
  match d !! col with
  | Some _ => d
  | None => <[col := Some []]> d
  end.

(** The row appended to [refreshed] for a row that is not found. *)
Definition out_row (extra_cols : list str) (annotations : gmap (str * str) (gmap str str)) (r : row) : row :=
  let k := row_key r in
  match annotations !! k with
  | Some anno =>
      if bool_decide (anno ≠ ∅)
      then Row ((Some <$> anno) ∪ fields r) (rest r)
      else Row (foldl setdefault (fields r) extra_cols) (rest r)
  | None => Row (foldl setdefault (fields r) extra_cols) (rest r)
  end.

(** [out_fields]: the base columns, then each extra column not yet
    there. *)
Definition append_new (out_fields : list str) (col : str) : list str :=
  if bool_decide (col ∈ out_fields) then out_fields else out_fields ++ [col].

(** [main]: from the candidate file, the previous output (when the file
    exists) and the parsed reports index to the file written. *)
Definition main (market : csvfile) (missing : option csvfile) (data : list entry) : csvfile :=
  let idx := load_existing_companies data in
  let '(base_fields, market_rows) := read_csv market in
  let '(anno_fields, anno_rows) :=
    match missing with
    | Some f => read_csv f
    | None => ([], [])
    end in
  let extra_cols :=
    filter (λ c, c ≠ [] ∧ c ∉ base_fields) anno_fields in
  let annotations := foldl (annotate extra_cols) ∅ anno_rows in
  let refreshed :=
    out_row extra_cols annotations
      <$> filter (λ r, row_exists r idx = false) market_rows in
  let out_fields := foldl append_new base_fields extra_cols in
  write_csv out_fields refreshed.

End Refresh.

End Refresh.

(** ** The specification's SymbolBase

    Written after the specification's sentence, to be compared with the
    two [symbol_base] of the scripts: trim; split at the first occurrence
    of any of [. : /] and white space and keep the left part; split that
    at [-] and keep the left part; uppercase and trim the result. *)

Module Spec.

Section Spec.
Context {rt : Runtime}.

Definition separator (c : char) : bool :=
  (c =? DOT) || (c =? COLON) || (c =? SLASH) || isspace c.

Definition SymbolBase (ticker : str) : str :=
  let s := strip ticker in
  let s := before separator s in
  let s := before (N.eqb DASH) s in
  strip (upper s).

End Spec.

End Spec.

(** ** Predicates of the proofs *)

Module Invariants.
Import Compare Refresh.

(** A state of the loop of [strip_suffix] in which [changed] is only
    false when the body leaves the tokens alone. *)
Definition settled (st : list str * bool) : Prop :=
  st.2 = false → strip_pass st.1 = (st.1, false).

(** The name a record is indexed under, if any. *)
Definition indexed_name (e : entry) (name : str) : Prop :=
  ∃ n, e = Dict (Some n) ∧ missing_or_blank e = false ∧ name = to_str n.

(** A key is listed under a token. *)
Definition listed (idx : index) (tok ns : str) : Prop :=
  ∃ keys, token_index idx !! tok = Some keys ∧ ns ∈ keys.

(** The elements of a list in the order of their first occurrence: each
    element is kept where it first stands and dropped further on. *)
Fixpoint first_occurrences (l : list str) : list str :=
  match l with
  | [] => []
  | x :: l' => x :: filter (λ y, y ≠ x) (first_occurrences l')
  end.

Section Invariants.
Context {rt : Runtime}.

(** One index holds everything another does. *)
Definition grows (i1 i2 : index) : Prop :=
  existing_norm i1 ⊆ existing_norm i2
  ∧ existing_compact i1 ⊆ existing_compact i2
  ∧ ∀ tok keys, token_index i1 !! tok = Some keys →
      ∃ keys', token_index i2 !! tok = Some keys' ∧ keys ⊆ keys'.

(** What [add_company] puts into the index. *)
Definition holds (idx : index) (name : str) : Prop :=
  let toks := clean_tokens name in
  norm_str toks ∈ existing_norm idx
  ∧ compact_str toks ∈ existing_compact idx
  ∧ ∀ tok, tok ∈ strip_suffix toks →
      ∃ keys, token_index idx !! tok = Some keys ∧ norm_str toks ∈ keys.

(** Every entry of [annotations] was taken from a row with its key. *)
Definition taken_from (extra : list str) (ann : gmap (str * str) (gmap str str)) : Prop :=
  ∀ key a, ann !! key = Some a →
    key ≠ ([], []) ∧ ∃ m, row_key m = key ∧ a = annotation extra m.

(** The row read back from the record written for the input row [r]. *)
Definition read_back (extra out_fields : list str) (ann : gmap (str * str) (gmap str str)) (r : row) : row :=
  dict_row out_fields (cells out_fields (out_row extra ann r)).

End Invariants.

End Invariants.

(** ** The interpreter's tables on ASCII

    On code points below 128 these are CPython's: white space is
    [\t\n\v\f\r], the separators 28 to 31 and the space; the letters
    change case; NFKD leaves the text alone and nothing is a combining
    mark.  Other code points are taken as caseless letters.  The concrete
    runs below only use ASCII text. *)
Module AsciiTables.

Definition is_space (c : char) : bool :=
  (9 <=? c) && (c <=? 13) || (28 <=? c) && (c <=? 32).

Definition lower_char (c : char) : char :=
  if (65 <=? c) && (c <=? 90) then c + 32 else c.

Definition upper_char (c : char) : char :=
  if (97 <=? c) && (c <=? 122) then c - 32 else c.

Definition is_digit (c : char) : bool :=
  (48 <=? c) && (c <=? 57).

Definition runtime : Runtime.
Proof.
  refine {|
    isspace := is_space;
    lower := List.map lower_char;
    upper := List.map upper_char;
    nfkd := id;
    combining := λ _, 0;
    isdigit := is_digit;
    lower_nil := eq_refl;
    upper_nil := eq_refl;
    nfkd_nil := eq_refl;
    upper_nospace := _;
  |}.
  intros s. induction s as [|c s IH]; simpl; [done|].
  intros [Hc Hs]%andb_true_iff. apply andb_true_iff; split; [|auto].
  apply negb_true_iff. apply negb_true_iff in Hc. revert Hc.
  unfold is_space, upper_char.
  destruct ((97 <=? c) && (c <=? 122)) eqn:E; [|done].
  apply andb_true_iff in E as [?%N.leb_le ?%N.leb_le]. intros _.
  apply orb_false_iff; split; apply andb_false_iff; right; apply N.leb_gt; lia.
Defined.

End AsciiTables.

(** ** Concrete data for the runs below *)

Module Examples.

(** A candidate row of a file with the columns [Name] and [Symbol]. *)
Definition candidate (name symbol : string) : Compare.row :=
  dict_row [py "Name"; py "Symbol"] [py name; py symbol].

(** A record of the reports index with the company name under ["c"]. *)
Definition reference (name : string) : Compare.entry :=
  Compare.Dict (Some (Compare.JString (py name))).

Definition two_capitals : list Compare.entry :=
  [reference "Capital One"; reference "Acme Capital"].

(** The index of a list of reference names, and the tokens of a name,
    with the ASCII tables. *)
Definition index_of (names : list string) : Compare.index :=
  Compare.load_existing_companies (rt := AsciiTables.runtime) (reference <$> names).

Definition tokens_of (name : string) : list str :=
  Compare.clean_tokens (rt := AsciiTables.runtime) (py name).

End Examples.

(** * Properties *)

(** ** Suffix stripping *)

Module StripSuffixFacts.
Import Compare Invariants.

Lemma pattern_nonempty pat : In pat SUFFIX_PATTERNS → (0 < length pat)%nat.
Proof.
  unfold SUFFIX_PATTERNS. simpl.
  intros [<-|[<-|[<-|[<-|[]]]]]; simpl; lia.
Qed.

Lemma length_head_slice {A} (n : nat) (t : list A) :
  length (head_slice n t) = (length t - n)%nat.
Proof. unfold head_slice. rewrite length_take. lia. Qed.

(** A run of the body that reports a change has removed a token. *)
Lemma strip_pass_changed t t' :
  strip_pass t = (t', true) → (length t' < length t)%nat.
Proof.
  unfold strip_pass.
  destruct (matching_pattern t) as [pat|] eqn:Hpat.
  - intros [= <-]. apply find_some in Hpat as [Hin Hc].
    apply andb_true_iff in Hc as [Hlen%bool_decide_eq_true _].
    apply pattern_nonempty in Hin. rewrite length_head_slice. lia.
  - destruct (last t) as [x|] eqn:Hlast; [|done].
    case_bool_decide; [|done]. intros [= <-].
    rewrite length_head_slice. destruct t; [discriminate Hlast|cbn [length]; lia].
Qed.

(** A run that reports no change leaves the tokens alone. *)
Lemma strip_pass_unchanged t t' : strip_pass t = (t', false) → t' = t.
Proof.
  unfold strip_pass.
  destruct (matching_pattern t); [done|].
  destruct (last t); [|by intros [= <-]].
  case_bool_decide; [done|by intros [= <-]].
Qed.

Lemma strip_loop_stop fuel t : strip_loop fuel (t, false) = Some ((t, false), O).
Proof.
  destruct fuel; simpl; unfold strip_cond; simpl;
    by rewrite andb_false_r.
Qed.

Lemma strip_loop_nil fuel c : strip_loop fuel ([], c) = Some (([], c), O).
Proof. by destruct fuel. Qed.

Lemma strip_loop_step fuel t :
  t ≠ [] →
  strip_loop (S fuel) (t, true)
  = match strip_loop fuel (strip_pass t) with
    | Some (st', n) => Some (st', S n)
    | None => None
    end.
Proof.
  intros Hne. cbn [strip_loop]. unfold strip_cond at 1. cbn [fst snd].
  by rewrite bool_decide_eq_true_2.
Qed.

(** With a budget of [length t] the loop returns, after at most
    [length t] runs of its body. *)
Lemma strip_loop_bounded fuel t :
  (length t ≤ fuel)%nat →
  ∃ st n, strip_loop fuel (t, true) = Some (st, n) ∧ (n ≤ length t)%nat.
Proof.
  revert t. induction fuel as [|fuel IH]; intros t Hlen.
  - destruct t; [|simpl in Hlen; lia]. eexists _, _. split; [done|simpl; lia].
  - destruct t as [|x t0]; [eexists _, _; split; [apply strip_loop_nil|simpl; lia]|].
    set (t := x :: t0) in *.
    rewrite strip_loop_step by done.
    destruct (strip_pass t) as [t' [|]] eqn:Hpass.
    + apply strip_pass_changed in Hpass.
      destruct (IH t') as (st & n & -> & Hn); [lia|].
      eexists _, _. split; [done|lia].
    + rewrite strip_loop_stop. eexists _, _. split; [done|].
      subst t. simpl. lia.
Qed.

(** More budget does not change the outcome. *)
Lemma strip_loop_mono fuel fuel' st r :
  (fuel ≤ fuel')%nat → strip_loop fuel st = Some r → strip_loop fuel' st = Some r.
Proof.
  revert fuel' st r. induction fuel as [|fuel IH]; intros fuel' st r Hle.
  - simpl. destruct (strip_cond st) eqn:Hc; [done|].
    intros [= <-]. destruct fuel'; simpl; by rewrite Hc.
  - destruct fuel' as [|fuel']; [lia|]. simpl.
    destruct (strip_cond st); [|done].
    destruct (strip_loop fuel (strip_pass st.1)) as [[st' n]|] eqn:Hl; [|done].
    intros [= <-]. by rewrite (IH fuel' _ _ ltac:(lia) Hl).
Qed.


Lemma strip_loop_settled fuel st st' n :
  settled st → strip_loop fuel st = Some (st', n) →
  settled st' ∧ (st'.1 = [] ∨ st'.2 = false).
Proof.
  revert st st' n. induction fuel as [|fuel IH]; intros st st' n Hst; simpl.
  - destruct (strip_cond st) eqn:Hc; [done|]. intros [= <- <-].
    split; [done|]. unfold strip_cond in Hc.
    apply andb_false_iff in Hc as [Hc|Hc]; [left|by right].
    apply bool_decide_eq_false in Hc. by destruct (st.1) eqn:E; [|destruct Hc].
  - destruct (strip_cond st) eqn:Hc.
    + destruct (strip_loop fuel (strip_pass st.1)) as [[st1 n1]|] eqn:Hl; [|done].
      intros [= <- <-]. eapply IH; [|done].
      intros Hf. destruct (strip_pass st.1) as [t1 c1] eqn:Hp. simpl in *. subst c1.
      pose proof (strip_pass_unchanged _ _ Hp) as ->. done.
    + intros [= <- <-]. split; [done|]. unfold strip_cond in Hc.
      apply andb_false_iff in Hc as [Hc|Hc]; [left|by right].
      apply bool_decide_eq_false in Hc. by destruct (st.1) eqn:E; [|destruct Hc].
Qed.

Lemma strip_suffix_fuel_enough tokens fuel :
  (length tokens ≤ fuel)%nat →
  strip_suffix_fuel fuel tokens = Some (strip_suffix tokens).
Proof.
  intros Hle. unfold strip_suffix.
  destruct (strip_loop_bounded (length tokens) tokens) as (st & n & Hl & _); [done|].
  pose proof (strip_loop_mono _ fuel _ _ Hle Hl) as Hl'.
  unfold strip_suffix_fuel. rewrite Hl, Hl'.
  destruct tokens; [done|]. by destruct st as [[|] ?].
Qed.

(** What [strip_suffix] returns, in terms of the state the loop ends in. *)
Lemma strip_suffix_unfold tokens :
  tokens ≠ [] →
  ∃ t c n, strip_loop (length tokens) (tokens, true) = Some ((t, c), n)
    ∧ strip_suffix tokens = (match t with [] => tokens | _ => t end)
    ∧ (t = [] ∨ strip_pass t = (t, false)).
Proof.
  intros Hne.
  destruct (strip_loop_bounded (length tokens) tokens) as ([t c] & n & Hl & _); [done|].
  exists t, c, n. split; [done|]. split.
  - unfold strip_suffix, strip_suffix_fuel. rewrite Hl. by destruct tokens.
  - apply strip_loop_settled in Hl as [Hs [?|Hc]]; [by left| |done].
    right. by apply Hs.
Qed.

(** Tokens the body does not change are returned as they are. *)
Lemma strip_suffix_settled t :
  t ≠ [] → strip_pass t = (t, false) → strip_suffix t = t.
Proof.
  intros Hne Hp. unfold strip_suffix, strip_suffix_fuel.
  destruct t as [|x t0]; [done|]. set (t := x :: t0) in *.
  change (length t) with (S (length t0)).
  rewrite strip_loop_step, Hp, strip_loop_stop by done. done.
Qed.

End StripSuffixFacts.

(** ** The reference index *)

Module IndexFacts.
Import Compare Invariants.

Section Facts.
Context {rt : Runtime}.

Lemma lookup_foldl_register (ns : str) (l : list str) (ti : gmap str (gset str)) (tok : str) :
  foldl (register ns) ti l !! tok
  = if decide (tok ∈ l) then Some (default ∅ (ti !! tok) ∪ {[ns]}) else ti !! tok.
Proof.
  revert ti. induction l as [|x l IH]; intros ti; simpl.
  - destruct (decide (tok ∈ [])) as [H|]; [|done]. by apply elem_of_nil in H.
  - rewrite IH. unfold register.
    destruct (decide (tok = x)) as [->|Hne].
    + rewrite lookup_insert_eq.
      destruct (decide (x ∈ x :: l)) as [_|H]; [|destruct H; by left].
      simpl. destruct (decide (x ∈ l)); [|done]. f_equal.
      by rewrite <- (assoc_L (∪)), (idemp_L (∪)).
    + rewrite lookup_insert_ne by done.
      destruct (decide (tok ∈ l)) as [Hl|Hl];
        destruct (decide (tok ∈ x :: l)) as [Hxl|Hxl]; try done.
      * destruct Hxl. by right.
      * apply elem_of_cons in Hxl as [?|?]; done.
Qed.


Lemma grows_refl i : grows i i.
Proof. repeat split; [done..|]. intros tok keys ->. by exists keys. Qed.

Lemma grows_trans i1 i2 i3 : grows i1 i2 → grows i2 i3 → grows i1 i3.
Proof.
  intros (N1 & C1 & T1) (N2 & C2 & T2). repeat split; [set_solver..|].
  intros tok keys H. destruct (T1 _ _ H) as (k2 & H2 & ?).
  destruct (T2 _ _ H2) as (k3 & H3 & ?). exists k3. split; [done|set_solver].
Qed.

Lemma add_company_grows idx name : grows idx (add_company idx name).
Proof.
  unfold grows, add_company. cbn [existing_norm existing_compact token_index].
  split; [set_solver|]. split; [set_solver|].
  intros tok keys H. rewrite lookup_foldl_register, H. cbn [default].
  case_decide; eexists; (split; [reflexivity|set_solver]).
Qed.

Lemma load_step_grows idx e : grows idx (load_step idx e).
Proof.
  destruct e as [|[n|]]; simpl; try apply grows_refl.
  destruct (truthy n); [apply add_company_grows|apply grows_refl].
Qed.

Lemma foldl_load_step_grows data idx : grows idx (foldl load_step idx data).
Proof.
  revert idx. induction data as [|e data IH]; intros idx; simpl.
  - apply grows_refl.
  - eapply grows_trans; [apply load_step_grows|apply IH].
Qed.


Lemma add_company_holds idx name : holds (add_company idx name) name.
Proof.
  unfold holds, add_company. cbn [existing_norm existing_compact token_index].
  split; [set_solver|]. split; [set_solver|].
  intros tok Htok. rewrite lookup_foldl_register.
  destruct (decide (tok ∈ strip_suffix (clean_tokens name))); [|done].
  eexists. split; [reflexivity|set_solver].
Qed.

Lemma holds_grows i1 i2 name : grows i1 i2 → holds i1 name → holds i2 name.
Proof.
  intros (N & C & T) (Hn & Hc & Ht). repeat split; [set_solver..|].
  intros tok Htok. destruct (Ht _ Htok) as (keys & Hk & ?).
  destruct (T _ _ Hk) as (keys' & ? & ?). exists keys'. split; [done|set_solver].
Qed.

Lemma load_step_skips idx e : missing_or_blank e = true → load_step idx e = idx.
Proof.
  destruct e as [|[[[|c s]|[|] text]|]]; simpl; try done.
Qed.

Lemma load_step_adds idx n :
  missing_or_blank (Dict (Some n)) = false →
  load_step idx (Dict (Some n)) = add_company idx (to_str n).
Proof. destruct n as [[|c s]|[|] text]; simpl; try done. Qed.

Lemma load_app data1 data2 :
  load_existing_companies (data1 ++ data2)
  = foldl load_step (load_existing_companies data1) data2.
Proof. unfold load_existing_companies. by rewrite foldl_app. Qed.

(** A record with a name is in the index, wherever it stands. *)
Lemma load_holds data1 data2 n :
  missing_or_blank (Dict (Some n)) = false →
  holds (load_existing_companies (data1 ++ Dict (Some n) :: data2)) (to_str n).
Proof.
  intros Hn. rewrite load_app. cbn [foldl]. rewrite load_step_adds by done.
  eapply holds_grows; [apply foldl_load_step_grows|apply add_company_holds].
Qed.

End Facts.

End IndexFacts.

(** ** The match rules *)

Module MatchFacts.
Import Compare.

Section Facts.
Context {rt : Runtime}.

Lemma clean_tokens_blank (name : str) : strip name = [] → clean_tokens name = [].
Proof.
  intros H. unfold clean_tokens, _strip_diacritics. rewrite H, nfkd_nil.
  change (filter _ []) with (@nil N) at 1. rewrite lower_nil. reflexivity.
Qed.

Lemma main_loop_acc (rows : list row) (idx : index) (missing : list row) (matched : nat) :
  (foldl
     (λ '(missing, matched) r,
        if row_exists r idx then (missing, S matched)
        else (missing ++ [r], matched))
     (missing, matched) rows).1
  = missing ++ filter (λ r, row_exists r idx = false) rows.
Proof.
  revert missing matched. induction rows as [|r rows IH]; intros missing matched.
  - simpl. by rewrite app_nil_r.
  - cbn [foldl]. destruct (row_exists r idx) eqn:E.
    + rewrite IH. by rewrite filter_cons_False by (by rewrite E).
    + rewrite IH, filter_cons_True by done. by rewrite <- app_assoc.
Qed.

(** The rows written are the rows not found, in input order. *)
Lemma main_loop_missing (rows : list row) (idx : index) :
  (main_loop rows idx).1 = filter (λ r, row_exists r idx = false) rows.
Proof. unfold main_loop. by rewrite main_loop_acc. Qed.

Lemma key_tokens_capital : key_tokens [py "capital"] = [].
Proof. by vm_compute. Qed.

Lemma row_exists_rules (r : row) (idx : index) :
  let toks := clean_tokens (get_or_empty r (py "Name")) in
  let stripped := strip_suffix toks in
  row_exists r idx
  = rule_exact stripped idx || rule_symbol r idx
    || rule_single_token stripped idx || rule_acronym toks idx
    || rule_key_token stripped idx.
Proof.
  unfold row_exists. cbv zeta.
  destruct (rule_exact _ idx); [reflexivity|].
  destruct (rule_symbol r idx); [reflexivity|].
  destruct (rule_single_token _ idx); [reflexivity|].
  destruct (rule_acronym _ idx); [reflexivity|].
  by destruct (rule_key_token _ idx).
Qed.

Lemma rule_symbol_blank (r : row) (idx : index) :
  strip (get_or_empty r (py "Symbol")) = [] → rule_symbol r idx = false.
Proof. intros H. unfold rule_symbol, symbol_base. by rewrite H. Qed.

End Facts.

End MatchFacts.

(** ** The refresh run *)

Module RefreshFacts.
Import Compare Refresh Invariants.

Section Columns.

(** The columns appended to the base columns: each new column once. *)
Lemma append_new_app (extra acc : list str) :
  ∃ new, foldl append_new acc extra = acc ++ new
         ∧ NoDup new
         ∧ ∀ c, c ∈ new ↔ c ∈ extra ∧ c ∉ acc.
Proof.
  revert acc. induction extra as [|x extra IH]; intros acc.
  - exists []. rewrite app_nil_r. split; [done|]. split; [constructor|].
    intros c. rewrite elem_of_nil. tauto.
  - cbn [foldl]. unfold append_new at 2. case_bool_decide as Hx.
    + destruct (IH acc) as (new & -> & Hnd & Hnew). exists new.
      split; [done|]. split; [done|]. intros c. rewrite Hnew, elem_of_cons.
      split; [tauto|]. intros [[->|?] ?]; tauto.
    + destruct (IH (acc ++ [x])) as (new & -> & Hnd & Hnew). exists (x :: new).
      split; [by rewrite <- app_assoc|]. split.
      * constructor; [|done]. rewrite Hnew, elem_of_app, list_elem_of_singleton.
        tauto.
      * intros c. rewrite !elem_of_cons, Hnew, elem_of_app, list_elem_of_singleton.
        destruct (decide (c = x)) as [->|]; tauto.
Qed.

Lemma append_new_fresh (new acc : list str) :
  NoDup new → (∀ c, c ∈ new → c ∉ acc) → foldl append_new acc new = acc ++ new.
Proof.
  revert acc. induction new as [|x new IH]; intros acc Hnd Hfresh.
  - by rewrite app_nil_r.
  - apply NoDup_cons in Hnd as [Hx Hnd]. cbn [foldl]. unfold append_new at 2.
    rewrite bool_decide_eq_false_2 by (apply Hfresh; by left).
    rewrite IH; [by rewrite <- app_assoc|done|].
    intros c Hc. rewrite elem_of_app, list_elem_of_singleton.
    intros [Hacc|Heq].
    + eapply Hfresh; [by right|done].
    + by subst c.
Qed.

Lemma filter_none {A} (P : A → Prop) `{∀ x, Decision (P x)} (l : list A) :
  (∀ x, x ∈ l → ¬ P x) → filter P l = [].
Proof.
  induction l as [|x l IH]; intros Hl; [done|].
  rewrite filter_cons_False by (apply Hl; by left).
  apply IH. intros y Hy. apply Hl. by right.
Qed.

Lemma filter_all {A} (P : A → Prop) `{∀ x, Decision (P x)} (l : list A) :
  (∀ x, x ∈ l → P x) → filter P l = l.
Proof.
  induction l as [|x l IH]; intros Hl; [done|].
  rewrite filter_cons_True by (apply Hl; by left).
  f_equal. apply IH. intros y Hy. apply Hl. by right.
Qed.

(** Read back from the columns written, the extra columns are the
    columns that were appended, and they give the same columns again. *)
Lemma columns_stable (base anno_fields : list str) :
  let extra := filter (λ c, c ≠ [] ∧ c ∉ base) anno_fields in
  let out_fields := foldl append_new base extra in
  let extra' := filter (λ c, c ≠ [] ∧ c ∉ base) out_fields in
  foldl append_new base extra' = out_fields
  ∧ out_fields = base ++ extra'
  ∧ (∀ c, c ∈ extra' ↔ c ∈ extra)
  ∧ (∀ c, c ∈ extra → c ∉ base).
Proof.
  intros extra out_fields extra'.
  assert (Hextra : ∀ c, c ∈ extra → c ≠ [] ∧ c ∉ base).
  { intros c Hc. by apply list_elem_of_filter in Hc as [? _]. }
  destruct (append_new_app extra base) as (new & Hout & Hnd & Hnew).
  assert (extra' = new) as Hextra'.
  { unfold extra', out_fields. rewrite Hout, filter_app.
    rewrite filter_none by (intros c Hc [_ Hnot]; done).
    rewrite filter_all; [done|]. intros c Hc. apply Hextra. by apply Hnew. }
  rewrite Hextra'. split; [|split; [done|split]].
  - unfold out_fields. rewrite Hout. apply append_new_fresh; [done|].
    intros c Hc. by apply Hnew.
  - intros c. rewrite Hnew. split; [tauto|]. intros Hc. split; [done|].
    by apply Hextra.
  - intros c Hc. by apply Hextra.
Qed.

End Columns.

Section Rows.

Lemma lookup_foldl_zip (g : str → str) (F : list str) (d : gmap str (option str)) (k : str) :
  foldl (λ d kv, <[kv.1 := Some kv.2]> d) d (zip F (g <$> F)) !! k
  = if decide (k ∈ F) then Some (Some (g k)) else d !! k.
Proof.
  revert d. induction F as [|x F IH]; intros d.
  - simpl. destruct (decide (k ∈ [])) as [H|]; [|done]. by apply elem_of_nil in H.
  - cbn [fmap list_fmap zip zip_with foldl fst snd]. rewrite IH.
    destruct (decide (k ∈ F)) as [HF|HF];
      destruct (decide (k ∈ x :: F)) as [HxF|HxF]; try done.
    + destruct HxF. by right.
    + apply elem_of_cons in HxF as [->|?]; [|done]. by rewrite lookup_insert_eq.
    + rewrite lookup_insert_ne; [done|]. intros ->. apply HxF. by left.
Qed.

(** A row read back from the record written for it. *)
Lemma lookup_read_back (F : list str) (o : row) (k : str) :
  get_or_empty (dict_row F (cells F o)) k
  = if decide (k ∈ F) then get_or_empty o k else [].
Proof.
  unfold dict_row, cells. rewrite length_fmap.
  rewrite bool_decide_eq_false_2 by lia. rewrite drop_all. cbn [foldl].
  unfold get_or_empty at 1. cbn [fields].
  rewrite lookup_foldl_zip, lookup_empty. by destruct (decide (k ∈ F)).
Qed.

Lemma lookup_foldl_insert_keys {V} (v : str → V) (keys : list str) (d : gmap str V) (k : str) :
  k ∉ keys → foldl (λ d key, <[key := v key]> d) d keys !! k = d !! k.
Proof.
  revert d. induction keys as [|x keys IH]; intros d Hk; [done|].
  apply not_elem_of_cons in Hk as [Hx Hk].
  cbn [foldl]. rewrite IH by done. by apply lookup_insert_ne.
Qed.

Lemma lookup_foldl_zip_other (F line : list str) (d : gmap str (option str)) (k : str) :
  k ∉ F → foldl (λ d kv, <[kv.1 := Some kv.2]> d) d (zip F line) !! k = d !! k.
Proof.
  revert line d. induction F as [|x F IH]; intros line d Hk; [done|].
  destruct line as [|c line]; [done|].
  apply not_elem_of_cons in Hk as [Hx Hk].
  cbn [zip zip_with foldl fst snd]. rewrite IH by done.
  by apply lookup_insert_ne.
Qed.

(** A row of the reader has no cell outside the field names. *)
Lemma dict_row_other (F line : list str) (k : str) :
  k ∉ F → fields (dict_row F line) !! k = None.
Proof.
  intros Hk. unfold dict_row. case_bool_decide; cbn [fields].
  - by rewrite lookup_foldl_zip_other.
  - rewrite (lookup_foldl_insert_keys (λ _, None)).
    + by rewrite lookup_foldl_zip_other.
    + intros Hin. apply Hk. by eapply subseteq_drop.
Qed.

End Rows.

Section Annotations.
Context {rt : Runtime}.

Lemma lookup_annotation (extra : list str) (m : row) (k : str) :
  annotation extra m !! k
  = if decide (k ∈ extra) then Some (get_or_empty m k) else None.
Proof.
  unfold annotation.
  assert (∀ d : gmap str str,
    foldl (λ d col, <[col := get_or_empty m col]> d) d extra !! k
    = if decide (k ∈ extra) then Some (get_or_empty m k) else d !! k) as H.
  { induction extra as [|x extra IH]; intros d.
    - simpl. destruct (decide (k ∈ [])) as [H|]; [|done]. by apply elem_of_nil in H.
    - cbn [foldl]. rewrite IH.
      destruct (decide (k ∈ extra)) as [HF|HF];
        destruct (decide (k ∈ x :: extra)) as [HxF|HxF]; try done.
      + destruct HxF. by right.
      + apply elem_of_cons in HxF as [->|?]; [|done]. by rewrite lookup_insert_eq.
      + rewrite lookup_insert_ne; [done|]. intros ->. apply HxF. by left. }
  by rewrite H, lookup_empty.
Qed.

Lemma annotation_nonempty (extra : list str) (m : row) (k : str) :
  k ∈ extra → annotation extra m ≠ ∅.
Proof.
  intros Hk Hempty.
  pose proof (lookup_annotation extra m k) as H.
  rewrite Hempty, lookup_empty, decide_True in H by done. done.
Qed.

(** What the loop over the annotated rows leaves in [annotations]: every
    entry comes from a row with that key, no entry has the empty key,
    and every row with another key has an entry. *)
Lemma annotate_spec (extra : list str) (rows : list row) (ann0 : gmap (str * str) (gmap str str)) :
  (∀ key a, foldl (annotate extra) ann0 rows !! key = Some a →
     ann0 !! key = Some a
     ∨ key ≠ ([], []) ∧ ∃ m, m ∈ rows ∧ row_key m = key ∧ a = annotation extra m)
  ∧ (∀ key, is_Some (ann0 !! key) → is_Some (foldl (annotate extra) ann0 rows !! key))
  ∧ (∀ m, m ∈ rows → row_key m ≠ ([], []) →
       is_Some (foldl (annotate extra) ann0 rows !! row_key m)).
Proof.
  revert ann0. induction rows as [|r rows IH]; intros ann0.
  - cbn [foldl]. split; [by left|]. split; [done|].
    intros m Hm. by apply elem_of_nil in Hm.
  - cbn [foldl]. destruct (IH (annotate extra ann0 r)) as (Hfrom & Hmono & Hall).
    assert (Hstep : ∀ key a, annotate extra ann0 r !! key = Some a →
      ann0 !! key = Some a
      ∨ key ≠ ([], []) ∧ row_key r = key ∧ a = annotation extra r).
    { intros key a. unfold annotate. case_bool_decide as Hk; [by left|].
      destruct (ann0 !! row_key r) eqn:E; [by left|].
      destruct (decide (key = row_key r)) as [->|Hne].
      - rewrite lookup_insert_eq. intros [= <-]. by right.
      - rewrite lookup_insert_ne by done. by left. }
    assert (Hkeep : ∀ key, is_Some (ann0 !! key) →
                           is_Some (annotate extra ann0 r !! key)).
    { intros key Hsome. unfold annotate. case_bool_decide; [done|].
      destruct (ann0 !! row_key r) eqn:E; [done|].
      destruct (decide (key = row_key r)) as [->|Hne].
      - rewrite E in Hsome. by destruct Hsome.
      - by rewrite lookup_insert_ne. }
    assert (Hnow : row_key r ≠ ([], []) →
                   is_Some (annotate extra ann0 r !! row_key r)).
    { intros Hk. unfold annotate. rewrite bool_decide_eq_false_2 by done.
      destruct (ann0 !! row_key r) eqn:E; [by rewrite E|].
      by rewrite lookup_insert_eq. }
    split; [|split].
    + intros key a Hka. destruct (Hfrom _ _ Hka) as [H0|(Hk & m & Hm & Hkm & Ha)].
      * destruct (Hstep _ _ H0) as [?|(Hk & Hkr & Ha)]; [by left|].
        right. split; [done|]. exists r. split; [by left|done].
      * right. split; [done|]. exists m. split; [by right|done].
    + intros key Hsome. by apply Hmono, Hkeep.
    + intros m Hm Hk. apply elem_of_cons in Hm as [->|Hm]; [|by apply Hall].
      by apply Hmono, Hnow.
Qed.

Lemma lookup_foldl_setdefault (extra : list str) (d : gmap str (option str)) (k : str) :
  foldl setdefault d extra !! k
  = match d !! k with
    | Some v => Some v
    | None => if decide (k ∈ extra) then Some (Some []) else None
    end.
Proof.
  revert d. induction extra as [|x extra IH]; intros d.
  - cbn [foldl]. destruct (d !! k); [done|].
    destruct (decide (k ∈ [])) as [H|]; [|done]. by apply elem_of_nil in H.
  - cbn [foldl]. rewrite IH. unfold setdefault.
    destruct (d !! x) as [vx|] eqn:Ex.
    + destruct (d !! k) eqn:Ek; [done|].
      destruct (decide (k ∈ extra)) as [HF|HF];
        destruct (decide (k ∈ x :: extra)) as [HxF|HxF]; try done.
      * destruct HxF. by right.
      * apply elem_of_cons in HxF as [->|?]; [|done]. by rewrite Ex in Ek.
    + destruct (decide (k = x)) as [->|Hne].
      * rewrite lookup_insert_eq, Ex.
        destruct (decide (x ∈ x :: extra)) as [|H]; [done|]. destruct H. by left.
      * rewrite lookup_insert_ne by done. destruct (d !! k); [done|].
        destruct (decide (k ∈ extra)) as [HF|HF];
          destruct (decide (k ∈ x :: extra)) as [HxF|HxF]; try done.
        -- destruct HxF. by right.
        -- apply elem_of_cons in HxF as [?|?]; done.
Qed.


Lemma annotations_taken_from (extra : list str) (rows : list row) :
  taken_from extra (foldl (annotate extra) ∅ rows).
Proof.
  intros key a Hka.
  destruct (annotate_spec extra rows ∅) as (Hfrom & _ & _).
  destruct (Hfrom _ _ Hka) as [H0|(Hk & m & _ & Hkm & Ha)].
  - by rewrite lookup_empty in H0.
  - split; [done|]. by exists m.
Qed.

(** The cell of an output row under an extra column: the annotation
    carried over for the key of the row, or the empty cell. *)
Lemma out_row_extra (extra : list str) (ann : gmap (str * str) (gmap str str)) (r : row) (k : str) :
  taken_from extra ann → k ∈ extra → fields r !! k = None →
  get_or_empty (out_row extra ann r) k
  = match ann !! row_key r with
    | Some a => default [] (a !! k)
    | None => []
    end.
Proof.
  intros Hann Hk Hr. unfold out_row.
  destruct (ann !! row_key r) as [a|] eqn:Ea.
  - destruct (Hann _ _ Ea) as (_ & m & _ & ->).
    rewrite bool_decide_eq_true_2 by by eapply annotation_nonempty.
    unfold get_or_empty at 1. cbn [fields].
    rewrite lookup_union, lookup_fmap, lookup_annotation, Hr.
    by rewrite decide_True by done.
  - unfold get_or_empty. cbn [fields].
    rewrite lookup_foldl_setdefault, Hr. by rewrite decide_True by done.
Qed.

(** Under any other column an output row has the cell of the input
    row. *)
Lemma out_row_base (extra : list str) (ann : gmap (str * str) (gmap str str)) (r : row) (k : str) :
  taken_from extra ann → k ∉ extra →
  get_or_empty (out_row extra ann r) k = get_or_empty r k.
Proof.
  intros Hann Hk. unfold out_row.
  assert (get_or_empty (Row (foldl setdefault (fields r) extra) (rest r)) k
          = get_or_empty r k) as Hdefault.
  { unfold get_or_empty. cbn [fields]. rewrite lookup_foldl_setdefault.
    destruct (fields r !! k); [done|]. by rewrite decide_False by done. }
  destruct (ann !! row_key r) as [a|] eqn:Ea; [|done].
  case_bool_decide; [|done].
  destruct (Hann _ _ Ea) as (_ & m & _ & ->).
  unfold get_or_empty. cbn [fields].
  rewrite lookup_union, lookup_fmap, lookup_annotation.
  rewrite decide_False by done. cbn [fmap option_fmap option_map].
  by rewrite (left_id_L None _).
Qed.

End Annotations.

Section Stability.
Context {rt : Runtime}.

Lemma read_csv_fields (f : csvfile) (F : list str) (rows : list row) (r : row) (k : str) :
  read_csv f = (F, rows) → r ∈ rows → k ∉ F → fields r !! k = None.
Proof.
  destruct f as [|header lines]; cbn [read_csv]; intros [= <- <-] Hr Hk.
  - by apply elem_of_nil in Hr.
  - apply list_elem_of_fmap in Hr as (line & -> & _). by apply dict_row_other.
Qed.

(** Reading a written file back: the columns, and one row per record
    unless there is no column at all. *)
Lemma read_csv_write_csv (F : list str) (rows : list row) :
  F ≠ [] →
  read_csv (write_csv F rows) = (F, (λ o, dict_row F (cells F o)) <$> rows).
Proof.
  intros HF. unfold write_csv. cbn [read_csv]. f_equal.
  rewrite filter_all.
  - by rewrite <- list_fmap_compose.
  - intros line (o & -> & _)%list_elem_of_fmap Hnil.
    apply HF. unfold cells in Hnil. by apply fmap_nil_inv in Hnil.
Qed.

Lemma main_unfold (market : csvfile) (missing : option csvfile) (data : list entry) (base anno_fields : list str) (market_rows anno_rows : list row) :
  read_csv market = (base, market_rows) →
  match missing with Some f => read_csv f | None => ([], []) end
    = (anno_fields, anno_rows) →
  main market missing data
  = write_csv
      (foldl append_new base (filter (λ c, c ≠ [] ∧ c ∉ base) anno_fields))
      (out_row
         (filter (λ c, c ≠ [] ∧ c ∉ base) anno_fields)
         (foldl (annotate (filter (λ c, c ≠ [] ∧ c ∉ base) anno_fields)) ∅ anno_rows)
       <$> filter (λ r, row_exists r (load_existing_companies data) = false)
             market_rows).
Proof. intros Hm Ha. unfold main. by rewrite Hm, Ha. Qed.

Section Run.
Variables (base extra out_fields : list str).
Variable ann : gmap (str * str) (gmap str str).
Hypothesis Hann : taken_from extra ann.
Hypothesis Hextra : ∀ c, c ∈ extra → c ∉ base.
Hypothesis Hbase : ∀ c, c ∈ base → c ∈ out_fields.


Lemma read_back_part (f : str → str) (field : str) (proj : str * str → str) (r : row) :
  (∀ m, proj (row_key m) = f (get_or_empty m field)) →
  (∀ k, k ∉ base → fields r !! k = None) →
  f (get_or_empty (read_back extra out_fields ann r) field) = f (get_or_empty r field).
Proof.
  intros Hproj Hr. unfold read_back. rewrite lookup_read_back.
  assert (field ∉ base → get_or_empty r field = []) as Hnone.
  { intros Hb. unfold get_or_empty. by rewrite Hr. }
  destruct (decide (field ∈ extra)) as [He|He].
  - pose proof (Hextra _ He) as Hb.
    destruct (decide (field ∈ out_fields)); [|by rewrite Hnone].
    rewrite out_row_extra by auto. rewrite (Hnone Hb).
    destruct (ann !! row_key r) as [a|] eqn:Ea; [|done].
    destruct (Hann _ _ Ea) as (_ & m & Hm & ->).
    rewrite lookup_annotation, decide_True by done. simpl.
    by rewrite <- Hproj, Hm, Hproj, Hnone.
  - destruct (decide (field ∈ out_fields)) as [Ho|Ho].
    + by rewrite out_row_base.
    + by rewrite Hnone by (intros Hb; by apply Ho, Hbase).
Qed.

(** The row read back has the key of the input row. *)
Lemma row_key_read_back (r : row) :
  (∀ k, k ∉ base → fields r !! k = None) →
  row_key (read_back extra out_fields ann r) = row_key r.
Proof.
  intros Hr. unfold row_key. f_equal.
  - by apply (read_back_part norm_name (py "Name") fst).
  - by apply (read_back_part symbol_base (py "Symbol") snd).
Qed.

End Run.

(** The second run gives every output row the cells of the first run. *)
Lemma refreshed_cells_stable (base anno_fields : list str) (anno_rows rows : list row) (r : row) (k : str) :
  (∀ r k, r ∈ rows → k ∉ base → fields r !! k = None) →
  r ∈ rows →
  k ∈ foldl append_new base (filter (λ c, c ≠ [] ∧ c ∉ base) anno_fields) →
  get_or_empty
    (out_row
       (filter (λ c, c ≠ [] ∧ c ∉ base)
          (foldl append_new base (filter (λ c, c ≠ [] ∧ c ∉ base) anno_fields)))
       (foldl
          (annotate
             (filter (λ c, c ≠ [] ∧ c ∉ base)
                (foldl append_new base (filter (λ c, c ≠ [] ∧ c ∉ base) anno_fields))))
          ∅
          (read_csv
             (write_csv
                (foldl append_new base (filter (λ c, c ≠ [] ∧ c ∉ base) anno_fields))
                (out_row
                   (filter (λ c, c ≠ [] ∧ c ∉ base) anno_fields)
                   (foldl (annotate (filter (λ c, c ≠ [] ∧ c ∉ base) anno_fields)) ∅ anno_rows)
                 <$> rows))).2)
       r) k
  = get_or_empty
      (out_row
         (filter (λ c, c ≠ [] ∧ c ∉ base) anno_fields)
         (foldl (annotate (filter (λ c, c ≠ [] ∧ c ∉ base) anno_fields)) ∅ anno_rows)
         r) k.
Proof.
  intros Hrows Hr Hk.
  destruct (columns_stable base anno_fields) as (_ & Hcols & Hsame & Hfresh).
  cbv zeta in Hcols, Hsame, Hfresh.
  set (extra := filter (λ c, c ≠ [] ∧ c ∉ base) anno_fields) in *.
  set (ann := foldl (annotate extra) ∅ anno_rows).
  set (F := foldl append_new base extra) in *.
  set (extra' := filter (λ c, c ≠ [] ∧ c ∉ base) F) in *.
  assert (Hann : taken_from extra ann) by apply annotations_taken_from.
  assert (Hbase : ∀ c, c ∈ base → c ∈ F).
  { intros c Hc. rewrite Hcols. apply elem_of_app. by left. }
  destruct (decide (k ∈ extra')) as [Hke|Hke].
  - (* an extra column *)
    assert (HF : F ≠ []) by (intros HF; rewrite HF in Hk; by apply elem_of_nil in Hk).
    rewrite read_csv_write_csv by done. cbn [snd].
    rewrite <- list_fmap_compose.
    set (rows' := (_ ∘ _) <$> rows).
    assert (Hrows' : ∀ m, m ∈ rows' →
              ∃ r', r' ∈ rows ∧ m = read_back extra F ann r').
    { intros m (r' & -> & Hr')%list_elem_of_fmap. by exists r'. }
    assert (Hke1 : k ∈ extra) by by apply Hsame.
    assert (Hkb : k ∉ base) by by apply Hfresh.
    rewrite (out_row_extra extra') by
      (try apply annotations_taken_from; try done; by apply Hrows).
    rewrite (out_row_extra extra) by (try done; by apply Hrows).
    destruct (annotate_spec extra' rows' ∅) as (Hfrom & _ & Hall).
    destruct (decide (row_key r = ([], []))) as [Hempty|Hkey].
    + (* the empty key is never annotated *)
      destruct (foldl (annotate extra') ∅ rows' !! row_key r) as [a'|] eqn:Ea'.
      { destruct (Hfrom _ _ Ea') as [H0|[Hne _]]; [by rewrite lookup_empty in H0|done]. }
      destruct (ann !! row_key r) as [a|] eqn:Ea; [|done].
      by destruct (Hann _ _ Ea) as [Hne _].
    + assert (Hin : read_back extra F ann r ∈ rows').
      { apply list_elem_of_fmap. by exists r. }
      assert (Hkr : row_key (read_back extra F ann r) = row_key r).
      { apply (row_key_read_back base); try done. intros; by apply Hrows. }
      destruct (Hall _ Hin) as [a' Ea']; [by rewrite Hkr|].
      rewrite Hkr in Ea'. rewrite Ea'.
      destruct (Hfrom _ _ Ea') as [H0|(_ & m & Hm & Hkm & ->)];
        [by rewrite lookup_empty in H0|].
      destruct (Hrows' _ Hm) as (r' & Hr' & ->).
      rewrite (row_key_read_back base) in Hkm
        by (try done; intros; by apply Hrows).
      rewrite lookup_annotation, decide_True by done. simpl.
      unfold read_back. rewrite lookup_read_back, decide_True by done.
      rewrite (out_row_extra extra) by (try done; by apply Hrows).
      by rewrite Hkm.
  - (* a base column *)
    assert (Hke1 : k ∉ extra) by (intros ?; by apply Hke, Hsame).
    rewrite (out_row_base extra') by (try apply annotations_taken_from; done).
    by rewrite (out_row_base extra).
Qed.

End Stability.

End RefreshFacts.

(** ** Ticker roots *)

Module SymbolBaseFacts.

Section Facts.
Context {rt : Runtime}.

Abbreviation nospace := (forallb (λ c, negb (isspace c))).

Lemma lstrip_nospace (s : str) : nospace s = true → lstrip s = s.
Proof.
  destruct s as [|c s]; [done|]. simpl.
  intros [Hc _]%andb_true_iff. by apply negb_true_iff in Hc as ->.
Qed.

Lemma nospace_reverse (s : str) : nospace s = true → nospace (reverse s) = true.
Proof.
  rewrite !forallb_forall. intros H c Hc. apply H.
  apply list_elem_of_In. apply list_elem_of_In in Hc.
  by rewrite elem_of_reverse in Hc.
Qed.

Lemma strip_nospace (s : str) : nospace s = true → strip s = s.
Proof.
  intros H. unfold strip, rstrip. rewrite (lstrip_nospace s H).
  rewrite lstrip_nospace by by apply nospace_reverse.
  apply reverse_involutive.
Qed.

Lemma before_forallb (P cls : char → bool) (s : str) :
  forallb P s = true → forallb P (before cls s) = true.
Proof.
  induction s as [|c s IH]; simpl; [done|].
  intros [Hc Hs]%andb_true_iff. destruct (cls c); [done|].
  simpl. rewrite Hc. auto.
Qed.

Lemma before_avoids (cls : char → bool) (s : str) :
  forallb (λ c, negb (cls c)) (before cls s) = true.
Proof.
  induction s as [|c s IH]; simpl; [done|].
  destruct (cls c) eqn:E; [done|]. simpl. by rewrite E.
Qed.

Lemma before_not_contained (c : char) (s : str) :
  contains c s = false → before (N.eqb c) s = s.
Proof.
  unfold contains. induction s as [|x s IH]; simpl; [done|].
  intros [Hx Hs]%orb_false_iff. rewrite Hx. by rewrite IH.
Qed.

(** The [if "-" in s] guard of the refresh script changes nothing. *)
Lemma dash_guard (s : str) :
  (if contains DASH s then before (N.eqb DASH) s else s) = before (N.eqb DASH) s.
Proof.
  destruct (contains DASH s) eqn:E; [done|]. by rewrite before_not_contained.
Qed.

(** The left part the comparison script keeps holds no white space. *)
Lemma root_nospace (s : str) :
  nospace (before (N.eqb DASH) (before Compare.symbol_sep s)) = true.
Proof.
  apply before_forallb.
  pose proof (before_avoids Compare.symbol_sep s) as H.
  rewrite forallb_forall in *. intros c Hc. specialize (H c Hc).
  unfold Compare.symbol_sep in H.
  apply negb_true_iff, orb_false_iff in H as [_ H]. by rewrite H.
Qed.

Lemma spec_is_upper_of_compare (s : str) :
  Spec.SymbolBase s = upper (Compare.symbol_base s).
Proof.
  unfold Spec.SymbolBase, Compare.symbol_base.
  change Spec.separator with Compare.symbol_sep.
  destruct (strip s) as [|c x] eqn:E.
  - simpl. by rewrite upper_nil.
  - apply strip_nospace, upper_nospace, root_nospace.
Qed.

Lemma refresh_is_upper_of_compare (s : str) :
  Refresh.cut_first_sep [DOT; COLON; SLASH; SPACE] (strip s)
    = before Compare.symbol_sep (strip s) →
  Refresh.symbol_base s = upper (Compare.symbol_base s).
Proof.
  intros Hcut. unfold Refresh.symbol_base, Compare.symbol_base.
  destruct (strip s) as [|c x] eqn:E; [by rewrite upper_nil|].
  rewrite Hcut, dash_guard. f_equal. apply strip_nospace, root_nospace.
Qed.

End Facts.

End SymbolBaseFacts.

(** ** Runs on concrete names *)

Example clean_tokens_generali :
  Examples.tokens_of "  Assicurazioni Generali S.p.A. "
  = List.map py ["assicurazioni"; "generali"; "s"; "p"; "a"]%string.
Proof. by vm_compute. Qed.

Example strip_suffix_generali :
  Compare.strip_suffix (Examples.tokens_of "Assicurazioni Generali S.p.A.")
  = List.map py ["assicurazioni"; "generali"]%string.
Proof. by vm_compute. Qed.

Example clean_tokens_punctuation :
  Examples.tokens_of "Moody's & Co-Op (UK) Ltd."
  = List.map py ["moodys"; "and"; "co"; "op"; "uk"; "ltd"]%string.
Proof. by vm_compute. Qed.

(** Two passes of the loop: first [ltd], then [holdings]. *)
Example strip_loop_two_passes :
  Compare.strip_loop 3 (List.map py ["acme"; "holdings"; "ltd"]%string, true)
  = Some ((List.map py ["acme"]%string, false), 3%nat).
Proof. by vm_compute. Qed.

Example row_key_bbva :
  Refresh.row_key (rt := AsciiTables.runtime) (Examples.candidate "Bbva, S.A." "bbva.mc")
  = (py "bbva", py "BBVA").
Proof. by vm_compute. Qed.

(** ** Claims on suffix stripping *)

(** C6: suffix stripping is idempotent: for every token sequence,
    [strip_suffix] applied to its own result returns that result. *)
Theorem strip_suffix_idempotent (tokens : list str) :
  Compare.strip_suffix (Compare.strip_suffix tokens) = Compare.strip_suffix tokens.
Proof.
  destruct (decide (tokens = [])) as [->|Hne]; [done|].
  destruct (StripSuffixFacts.strip_suffix_unfold tokens Hne)
    as (t & c & n & _ & Hres & Hstable).
  rewrite Hres. destruct t as [|x t]; [by rewrite <- Hres at 2|].
  destruct Hstable as [|Hstable]; [done|].
  by apply StripSuffixFacts.strip_suffix_settled.
Qed.

(** C7: for every non-empty token sequence [strip_suffix] returns a
    non-empty sequence: the tokens [t] the loop ends with, or, when the
    loop has removed every token, the original sequence. *)
Theorem strip_suffix_nonempty (tokens : list str) :
  tokens ≠ [] →
  Compare.strip_suffix tokens ≠ []
  ∧ ∃ t c n,
      Compare.strip_loop (length tokens) (tokens, true) = Some ((t, c), n)
      ∧ Compare.strip_suffix tokens = match t with [] => tokens | _ => t end.
Proof.
  intros Hne.
  destruct (StripSuffixFacts.strip_suffix_unfold tokens Hne)
    as (t & c & n & Hloop & Hres & _).
  split; [|by exists t, c, n].
  rewrite Hres. by destruct t.
Qed.

(** A name made of legal suffixes only is kept whole. *)
Lemma strip_suffix_nonempty_witness :
  Compare.strip_suffix [py "holding"; py "sa"] ≠ []
  ∧ ∃ t c n,
      Compare.strip_loop 2 ([py "holding"; py "sa"], true) = Some ((t, c), n)
      ∧ Compare.strip_suffix [py "holding"; py "sa"]
        = match t with [] => [py "holding"; py "sa"] | _ => t end.
Proof.
  apply (strip_suffix_nonempty [py "holding"; py "sa"]). done.
Defined.

(** C8: [strip_suffix] terminates on every token sequence: a budget of
    as many runs of the loop body as there are tokens suffices, the body
    runs [n] times with [n] at most the number of tokens, and any larger
    budget gives the same final state and the same result. *)
Theorem strip_suffix_terminates (tokens : list str) :
  ∃ st n,
    (n ≤ length tokens)%nat
    ∧ ∀ extra : nat,
        Compare.strip_loop (length tokens + extra) (tokens, true) = Some (st, n)
        ∧ Compare.strip_suffix_fuel (length tokens + extra) tokens
          = Some (Compare.strip_suffix tokens).
Proof.
  destruct (StripSuffixFacts.strip_loop_bounded (length tokens) tokens)
    as (st & n & Hloop & Hn); [done|].
  exists st, n. split; [done|]. intros extra. split.
  - eapply StripSuffixFacts.strip_loop_mono; [|done]. lia.
  - apply StripSuffixFacts.strip_suffix_fuel_enough. lia.
Qed.

(** ** Claims on the ticker root *)

(** C5, as stated, fails: the comparison script returns the left part in
    the case it came in, and the refresh script cuts at the first of
    [.], [:], [/], space in that order of preference, not at the leftmost
    of them. *)
Lemma symbol_base_differs_from_spec :
  Compare.symbol_base (rt := AsciiTables.runtime) (py "bbva.mc") = py "bbva"
  ∧ Spec.SymbolBase (rt := AsciiTables.runtime) (py "bbva.mc") = py "BBVA"
  ∧ Compare.symbol_base (rt := AsciiTables.runtime) (py "bbva.mc")
    ≠ Spec.SymbolBase (rt := AsciiTables.runtime) (py "bbva.mc")
  ∧ Refresh.symbol_base (rt := AsciiTables.runtime) (py "A:B.C") = py "A:B"
  ∧ Spec.SymbolBase (rt := AsciiTables.runtime) (py "A:B.C") = py "A"
  ∧ Refresh.symbol_base (rt := AsciiTables.runtime) (py "A:B.C")
    ≠ Spec.SymbolBase (rt := AsciiTables.runtime) (py "A:B.C").
Proof. by vm_compute. Qed.

(** C5, amended: for every ticker, [symbol_base] of the comparison script
    is the trimmed ticker cut at the leftmost of [.], [:], [/] and white
    space and then at [-], in the case it came in, so that uppercasing
    it gives the specified SymbolBase; [symbol_base] of the refresh
    script gives the specified SymbolBase whenever its cut, at the first
    of [.], [:], [/], space in this order that occurs, is the cut at the
    leftmost separator; the empty ticker gives the empty string. *)
Theorem symbol_base_spec `{rt : Runtime} (ticker : str) :
  Compare.symbol_base ticker
    = match strip ticker with
      | [] => []
      | s => before (N.eqb DASH) (before Spec.separator s)
      end
  ∧ Spec.SymbolBase ticker = upper (Compare.symbol_base ticker)
  ∧ (Refresh.cut_first_sep [DOT; COLON; SLASH; SPACE] (strip ticker)
       = before Spec.separator (strip ticker) →
     Refresh.symbol_base ticker = Spec.SymbolBase ticker)
  ∧ Compare.symbol_base [] = []
  ∧ Refresh.symbol_base [] = []
  ∧ Spec.SymbolBase [] = [].
Proof.
  split; [by unfold Compare.symbol_base; destruct (strip ticker)|].
  split; [apply SymbolBaseFacts.spec_is_upper_of_compare|].
  split.
  - intros Hcut.
    rewrite SymbolBaseFacts.spec_is_upper_of_compare.
    by apply SymbolBaseFacts.refresh_is_upper_of_compare.
  - repeat split; try done.
    unfold Spec.SymbolBase. simpl. by rewrite upper_nil.
Qed.

Lemma symbol_base_spec_witness :
  Refresh.symbol_base (rt := AsciiTables.runtime) (py "rds-a.l")
  = Spec.SymbolBase (rt := AsciiTables.runtime) (py "rds-a.l").
Proof.
  destruct (symbol_base_spec (rt := AsciiTables.runtime) (py "rds-a.l"))
    as (_ & _ & H & _).
  apply H. reflexivity.
Defined.

(** C10, as stated, fails: on a lowercase ticker the two functions differ
    in case, and on a ticker with two kinds of separators they differ
    even up to case. *)
Lemma symbol_base_implementations_differ :
  Compare.symbol_base (rt := AsciiTables.runtime) (py "bbva")
    ≠ Refresh.symbol_base (rt := AsciiTables.runtime) (py "bbva")
  ∧ upper (Runtime := AsciiTables.runtime)
      (Compare.symbol_base (rt := AsciiTables.runtime) (py "A:B.C"))
    ≠ Refresh.symbol_base (rt := AsciiTables.runtime) (py "A:B.C").
Proof. by vm_compute. Qed.

(** C10, amended: for every string on which the cut of the refresh
    script (the first of [.], [:], [/], space in this order that occurs)
    is the cut at the leftmost separator, the refresh script returns the
    uppercased result of the comparison script; the two return the same
    string when, moreover, that result is its own uppercase. *)
Theorem symbol_base_agree `{rt : Runtime} (symbol : str) :
  Refresh.cut_first_sep [DOT; COLON; SLASH; SPACE] (strip symbol)
    = before Compare.symbol_sep (strip symbol) →
  Refresh.symbol_base symbol = upper (Compare.symbol_base symbol)
  ∧ (upper (Compare.symbol_base symbol) = Compare.symbol_base symbol →
     Refresh.symbol_base symbol = Compare.symbol_base symbol).
Proof.
  intros Hcut.
  pose proof (SymbolBaseFacts.refresh_is_upper_of_compare symbol Hcut) as H.
  split; [done|]. intros Hup. by rewrite H.
Qed.

Lemma symbol_base_agree_witness :
  Refresh.symbol_base (rt := AsciiTables.runtime) (py "BBVA.MC")
  = Compare.symbol_base (rt := AsciiTables.runtime) (py "BBVA.MC").
Proof.
  destruct (symbol_base_agree (rt := AsciiTables.runtime) (py "BBVA.MC"))
    as [_ H]; [reflexivity|].
  apply H. reflexivity.
Defined.

(** ** Claims on the reference index *)

(** What the test [if not name] of the build does: a record with
    nothing under ["c"], or with a value there that is false in a
    condition, is skipped: the index is the one built without the record
    and the build goes on with the records after it; every other record
    is indexed: its normalized key and its compact key are in the two
    key sets and each of its stripped tokens leads to its normalized
    key. *)
Theorem blank_references_skipped `{rt : Runtime} (data1 data2 : list Compare.entry) (e : Compare.entry) :
  (Compare.missing_or_blank e = true →
   Compare.load_existing_companies (data1 ++ e :: data2)
   = Compare.load_existing_companies (data1 ++ data2))
  ∧ (∀ n, e = Compare.Dict (Some n) → Compare.missing_or_blank e = false →
     let idx := Compare.load_existing_companies (data1 ++ e :: data2) in
     let toks := Compare.clean_tokens (Compare.to_str n) in
     Compare.norm_str toks ∈ Compare.existing_norm idx
     ∧ Compare.compact_str toks ∈ Compare.existing_compact idx
     ∧ ∀ tok, tok ∈ Compare.strip_suffix toks →
         ∃ keys, Compare.token_index idx !! tok = Some keys
                 ∧ Compare.norm_str toks ∈ keys).
Proof.
  split.
  - intros Hblank. rewrite !IndexFacts.load_app. cbn [foldl].
    by rewrite IndexFacts.load_step_skips.
  - intros n -> Hn. by apply IndexFacts.load_holds.
Qed.

Lemma blank_references_skipped_witness :
  Compare.load_existing_companies (rt := AsciiTables.runtime)
    [Examples.reference "Acme"; Compare.Dict (Some (Compare.JString []));
     Examples.reference "Generali"]
  = Compare.load_existing_companies (rt := AsciiTables.runtime)
      [Examples.reference "Acme"; Examples.reference "Generali"]
  ∧ py "generali"
    ∈ Compare.existing_norm
        (Compare.load_existing_companies (rt := AsciiTables.runtime)
           [Examples.reference "Acme"; Examples.reference "Generali"]).
Proof.
  split.
  - destruct (blank_references_skipped (rt := AsciiTables.runtime)
                [Examples.reference "Acme"] [Examples.reference "Generali"]
                (Compare.Dict (Some (Compare.JString [])))) as [H _].
    apply H. reflexivity.
  - destruct (blank_references_skipped (rt := AsciiTables.runtime)
                [Examples.reference "Acme"] []
                (Examples.reference "Generali")) as [_ H].
    destruct (H (Compare.JString (py "Generali")) eq_refl eq_refl) as [Hn _].
    exact Hn.
Defined.

(** A name of white space only passes the test of the build: it is
    indexed, under the empty key. *)
Example space_reference_indexed :
  Compare.existing_norm
    (Compare.load_existing_companies (rt := AsciiTables.runtime)
       [Examples.reference " "])
  = {[ [] ]}.
Proof. by vm_compute. Qed.

(** C9, on the code: a reference record whose name is blank, made of
    white space only, is not skipped.  The test [if not name] lets it
    through, it has no token, and the empty key is added to the
    NormalizedKey set and to the CompactKey set, so that the index is
    not the index built without the record; a candidate without a name
    is then found, by rule 1. *)
Theorem blank_reference_not_skipped :
  Compare.missing_or_blank (Examples.reference " ") = false
  ∧ Examples.tokens_of " " = []
  ∧ Compare.load_existing_companies (rt := AsciiTables.runtime) [Examples.reference " "]
    = Compare.Index {[ [] ]} {[ [] ]} ∅
  ∧ Compare.load_existing_companies (rt := AsciiTables.runtime) [Examples.reference " "]
    ≠ Compare.load_existing_companies (rt := AsciiTables.runtime) []
  ∧ Compare.row_exists (rt := AsciiTables.runtime)
      (Examples.candidate "" "")
      (Compare.load_existing_companies (rt := AsciiTables.runtime) []) = false
  ∧ Compare.row_exists (rt := AsciiTables.runtime)
      (Examples.candidate "" "")
      (Compare.load_existing_companies (rt := AsciiTables.runtime)
         [Examples.reference " "]) = true.
Proof.
  repeat (split; [vm_compute; reflexivity|]).
  split; [|split]; [|vm_compute; reflexivity..].
  vm_compute. discriminate.
Qed.

(** ** Claims on the match rules *)

(** With two references that contain the token [capital], the candidate
    "Capital" is matched, by rule 3; rules 1, 2, 4 and 5 do not fire. *)
Lemma capital_is_matched :
  Compare.strip_suffix (Examples.tokens_of "Capital") = [py "capital"]
  ∧ Compare.token_index (Examples.index_of ["Capital One"; "Acme Capital"]%string)
      !! py "capital"
    = Some {[ py "capital one"; py "acme capital" ]}
  ∧ Compare.rule_exact [py "capital"]
      (Examples.index_of ["Capital One"; "Acme Capital"]%string) = false
  ∧ Compare.rule_symbol (rt := AsciiTables.runtime)
      (Examples.candidate "Capital" "")
      (Examples.index_of ["Capital One"; "Acme Capital"]%string) = false
  ∧ Compare.rule_acronym (rt := AsciiTables.runtime)
      (Examples.tokens_of "Capital")
      (Examples.index_of ["Capital One"; "Acme Capital"]%string) = false
  ∧ Compare.rule_key_token [py "capital"]
      (Examples.index_of ["Capital One"; "Acme Capital"]%string) = false
  ∧ Compare.rule_single_token [py "capital"]
      (Examples.index_of ["Capital One"; "Acme Capital"]%string) = true
  ∧ Compare.row_exists (rt := AsciiTables.runtime)
      (Examples.candidate "Capital" "")
      (Examples.index_of ["Capital One"; "Acme Capital"]%string) = true.
Proof.
  repeat (split; [vm_compute; reflexivity|]). vm_compute; reflexivity.
Qed.

(** Where rule 3 stands for such a candidate: for every reference set
    and every candidate whose name normalizes to the single stripped
    token [capital], rule 5 does not fire, the token being generic; as
    soon as a reference name contains the stripped token [capital] (one,
    two or more of them), rule 3 fires, so that "a reference contains
    the token" and "no rule but rule 5 fires" never hold together.  The
    candidate is unmatched exactly when the token is not in the index
    and rules 1, 2 and 4 do not fire. *)
Theorem generic_single_token `{rt : Runtime} (data : list Compare.entry) (r : Compare.row) :
  Compare.strip_suffix (Compare.clean_tokens (Compare.get_or_empty r (py "Name")))
    = [py "capital"] →
  Compare.rule_key_token [py "capital"] (Compare.load_existing_companies data) = false
  ∧ ((∃ n, Compare.Dict (Some n) ∈ data
           ∧ Compare.missing_or_blank (Compare.Dict (Some n)) = false
           ∧ py "capital"
             ∈ Compare.strip_suffix (Compare.clean_tokens (Compare.to_str n))) →
     Compare.rule_single_token [py "capital"] (Compare.load_existing_companies data) = true
     ∧ Compare.row_exists r (Compare.load_existing_companies data) = true)
  ∧ (Compare.row_exists r (Compare.load_existing_companies data) = false ↔
     Compare.token_index (Compare.load_existing_companies data) !! py "capital" = None
     ∧ Compare.rule_exact [py "capital"] (Compare.load_existing_companies data) = false
     ∧ Compare.rule_symbol r (Compare.load_existing_companies data) = false
     ∧ Compare.rule_acronym
         (Compare.clean_tokens (Compare.get_or_empty r (py "Name")))
         (Compare.load_existing_companies data) = false).
Proof.
  set (idx := Compare.load_existing_companies data).
  set (toks := Compare.clean_tokens (Compare.get_or_empty r (py "Name"))).
  intros Hstripped.
  assert (Hkey : Compare.rule_key_token [py "capital"] idx = false).
  { unfold Compare.rule_key_token. by rewrite MatchFacts.key_tokens_capital. }
  assert (Hrules := MatchFacts.row_exists_rules r idx).
  cbv zeta in Hrules. fold toks in Hrules. rewrite Hstripped, Hkey in Hrules.
  split; [done|]. split.
  - intros (n & Hin & Hn & Htok).
    apply list_elem_of_split in Hin as (data1 & data2 & Hdata).
    destruct (IndexFacts.load_holds data1 data2 n Hn) as (_ & _ & Hidx).
    destruct (Hidx _ Htok) as (keys & Hkeys & _).
    rewrite <- Hdata in Hkeys. fold idx in Hkeys.
    assert (Compare.rule_single_token [py "capital"] idx = true) as H3.
    { unfold Compare.rule_single_token. rewrite Hkeys.
      by apply bool_decide_eq_true. }
    split; [done|]. rewrite Hrules, H3. by rewrite !orb_true_r.
  - rewrite Hrules. unfold Compare.rule_single_token.
    rewrite orb_false_r, !orb_false_iff, bool_decide_eq_false.
    rewrite <- eq_None_not_Some. tauto.
Qed.

Lemma generic_single_token_witness :
  Compare.row_exists (rt := AsciiTables.runtime)
    (Examples.candidate "Capital" "")
    (Compare.load_existing_companies (rt := AsciiTables.runtime) Examples.two_capitals)
  = true.
Proof.
  destruct (generic_single_token (rt := AsciiTables.runtime)
              Examples.two_capitals (Examples.candidate "Capital" ""))
    as (_ & H & _); [reflexivity|].
  apply H. exists (Compare.JString (py "Capital One")).
  split; [by left|]. split; [reflexivity|]. by vm_compute; left.
Defined.



(** C2, as stated, fails: against the only reference "Banco Bilbao
    Vizcaya Argentaria", the candidate "BBVA" with ticker "BBVA.MC" is
    not matched.  The acronym rule takes the acronym of the candidate's
    own name, here [b], and not that of the reference. *)
Lemma bbva_ticker_is_unmatched :
  Compare.symbol_base (rt := AsciiTables.runtime) (py "BBVA.MC") = py "BBVA"
  ∧ Compare.acronym (rt := AsciiTables.runtime) (Examples.tokens_of "BBVA") = py "b"
  ∧ Compare.rule_acronym (rt := AsciiTables.runtime)
      (Examples.tokens_of "BBVA")
      (Examples.index_of ["Banco Bilbao Vizcaya Argentaria"]%string) = false
  ∧ Compare.row_exists (rt := AsciiTables.runtime)
      (Examples.candidate "BBVA" "BBVA.MC")
      (Examples.index_of ["Banco Bilbao Vizcaya Argentaria"]%string) = false.
Proof.
  repeat (split; [vm_compute; reflexivity|]). vm_compute; reflexivity.
Qed.

(** C2, amended: when the reference set contains only the name "BBVA", a
    candidate named "Banco Bilbao Vizcaya Argentaria" with an empty
    ticker is decided as matched by the acronym rule: its acronym is
    [bbva], rules 1, 2 and 3 do not fire and rule 4 does. *)
Theorem acronym_rule_matches :
  Compare.acronym (rt := AsciiTables.runtime)
    (Examples.tokens_of "Banco Bilbao Vizcaya Argentaria") = py "bbva"
  ∧ Compare.rule_exact
      (Compare.strip_suffix (Examples.tokens_of "Banco Bilbao Vizcaya Argentaria"))
      (Examples.index_of ["BBVA"]%string) = false
  ∧ Compare.rule_symbol (rt := AsciiTables.runtime)
      (Examples.candidate "Banco Bilbao Vizcaya Argentaria" "")
      (Examples.index_of ["BBVA"]%string) = false
  ∧ Compare.rule_single_token
      (Compare.strip_suffix (Examples.tokens_of "Banco Bilbao Vizcaya Argentaria"))
      (Examples.index_of ["BBVA"]%string) = false
  ∧ Compare.rule_acronym (rt := AsciiTables.runtime)
      (Examples.tokens_of "Banco Bilbao Vizcaya Argentaria")
      (Examples.index_of ["BBVA"]%string) = true
  ∧ Compare.row_exists (rt := AsciiTables.runtime)
      (Examples.candidate "Banco Bilbao Vizcaya Argentaria" "")
      (Examples.index_of ["BBVA"]%string) = true.
Proof.
  repeat (split; [vm_compute; reflexivity|]). vm_compute; reflexivity.
Qed.

(** C4, as stated, fails: a candidate without a name is matched when its
    ticker is found, by rule 2. *)
Lemma nameless_candidate_matched_by_ticker :
  Examples.tokens_of "" = []
  ∧ Compare.rule_symbol (rt := AsciiTables.runtime)
      (Examples.candidate "" "BBVA.MC") (Examples.index_of ["BBVA"]%string) = true
  ∧ Compare.row_exists (rt := AsciiTables.runtime)
      (Examples.candidate "" "BBVA.MC") (Examples.index_of ["BBVA"]%string) = true
  ∧ (Compare.main_loop (rt := AsciiTables.runtime)
       [Examples.candidate "" "BBVA.MC"] (Examples.index_of ["BBVA"]%string)).1 = [].
Proof.
  repeat (split; [vm_compute; reflexivity|]). vm_compute; reflexivity.
Qed.

(** C4, amended: for every candidate whose name field is blank or
    missing, the name normalizes to the empty token sequence and rules 3,
    4 and 5 do not fire, whatever the reference index; the row is found
    exactly when rule 1 fires on the empty key or rule 2 fires on the
    ticker.  When neither does, as when the ticker is blank too and the
    index has no empty key, the row is among the rows written as
    missing. *)
Theorem blank_name_candidate `{rt : Runtime} (r : Compare.row) (idx : Compare.index) (mc_rows : list Compare.row) :
  strip (Compare.get_or_empty r (py "Name")) = [] →
  Compare.clean_tokens (Compare.get_or_empty r (py "Name")) = []
  ∧ Compare.strip_suffix [] = []
  ∧ Compare.rule_single_token [] idx = false
  ∧ Compare.rule_acronym [] idx = false
  ∧ Compare.rule_key_token [] idx = false
  ∧ Compare.row_exists r idx
    = bool_decide ([] ∈ Compare.existing_norm idx)
      || bool_decide ([] ∈ Compare.existing_compact idx)
      || Compare.rule_symbol r idx
  ∧ (r ∈ mc_rows → Compare.row_exists r idx = false →
     r ∈ (Compare.main_loop mc_rows idx).1)
  ∧ (r ∈ mc_rows →
     strip (Compare.get_or_empty r (py "Symbol")) = [] →
     [] ∉ Compare.existing_norm idx → [] ∉ Compare.existing_compact idx →
     Compare.row_exists r idx = false ∧ r ∈ (Compare.main_loop mc_rows idx).1).
Proof.
  intros Hblank.
  pose proof (MatchFacts.clean_tokens_blank _ Hblank) as Htoks.
  assert (Hrules := MatchFacts.row_exists_rules r idx).
  cbv zeta in Hrules. rewrite Htoks in Hrules.
  change (Compare.strip_suffix []) with (@nil (list N)) in Hrules.
  change (Compare.rule_single_token [] idx) with false in Hrules.
  change (Compare.rule_acronym [] idx) with false in Hrules.
  change (Compare.rule_key_token [] idx) with false in Hrules.
  rewrite !orb_false_r in Hrules.
  assert (Hout : r ∈ mc_rows → Compare.row_exists r idx = false →
                 r ∈ (Compare.main_loop mc_rows idx).1).
  { intros Hin Hno. rewrite MatchFacts.main_loop_missing.
    by apply list_elem_of_filter. }
  repeat (split; [done|]). intros Hin Hsym Hn Hc.
  assert (Compare.row_exists r idx = false) as Hno.
  { rewrite Hrules, MatchFacts.rule_symbol_blank by done.
    unfold Compare.rule_exact. cbn [join].
    by rewrite !bool_decide_eq_false_2. }
  auto.
Qed.

Lemma blank_name_candidate_witness :
  Compare.row_exists (rt := AsciiTables.runtime)
    (Examples.candidate " " "") (Examples.index_of ["BBVA"]%string) = false
  ∧ Examples.candidate " " ""
    ∈ (Compare.main_loop (rt := AsciiTables.runtime)
         [Examples.candidate "Bbva SA" ""; Examples.candidate " " ""]
         (Examples.index_of ["BBVA"]%string)).1.
Proof.
  destruct (blank_name_candidate (rt := AsciiTables.runtime)
              (Examples.candidate " " "") (Examples.index_of ["BBVA"]%string)
              [Examples.candidate "Bbva SA" ""; Examples.candidate " " ""])
    as (_ & _ & _ & _ & _ & _ & _ & H); [reflexivity|].
  apply H.
  - right. left.
  - reflexivity.
  - by vm_compute.
  - by vm_compute.
Defined.

(** ** Claims on the refresh run *)

(** C3: the refresh run is at a fixed point after one run: run again on
    the same candidate file and the same reports index, with the file it
    has just written as the previous output, it writes the same file:
    the same columns in the same order and the same records with the
    same annotation cells. *)
Theorem refresh_fixed_point `{rt : Runtime} (market : list (list str)) (missing : option (list (list str))) (data : list Compare.entry) :
  Refresh.main market (Some (Refresh.main market missing data)) data
  = Refresh.main market missing data.
Proof.
  destruct (read_csv market) as [base market_rows] eqn:Hmarket.
  destruct (match missing with Some f => read_csv f | None => ([], []) end)
    as [anno_fields anno_rows] eqn:Hmissing.
  rewrite (RefreshFacts.main_unfold market missing data _ _ _ _ Hmarket Hmissing).
  set (extra := filter (λ c, c ≠ [] ∧ c ∉ base) anno_fields).
  set (ann := foldl (Refresh.annotate extra) ∅ anno_rows).
  set (F := foldl Refresh.append_new base extra).
  set (rows := filter _ market_rows).
  set (out := write_csv F (Refresh.out_row extra ann <$> rows)).
  assert (Hread : match Some out with
                  | Some f => read_csv f
                  | None => ([], [])
                  end = (F, (read_csv out).2)).
  { unfold out, write_csv. by cbn [read_csv snd]. }
  rewrite (RefreshFacts.main_unfold market (Some out) data _ _ _ _ Hmarket Hread).
  destruct (RefreshFacts.columns_stable base anno_fields) as (Hcols & _).
  cbv zeta in Hcols. fold extra F in Hcols. rewrite Hcols.
  fold rows. unfold out at 2, write_csv. apply (f_equal (cons F)).
  rewrite <- !list_fmap_compose.
  apply Forall_fmap_ext_1, Forall_forall. intros r Hr.
  unfold compose, cells. apply Forall_fmap_ext_1, Forall_forall. intros k Hk.
  apply RefreshFacts.refreshed_cells_stable; [|done..].
  intros r' k' Hr' Hk'.
  apply (RefreshFacts.read_csv_fields market base market_rows); [done| |done].
  by apply list_elem_of_filter in Hr' as [_ ?].
Qed.

(** * Further properties of the two scripts *)

(** ** Tokens and keys *)

Module TokenFacts.
Import Compare Invariants.

Section Facts.
Context {rt : Runtime}.

Lemma sub_runs_chars (cls : char → bool) (r : str) (in_run : bool) (s : str) (c : char) :
  c ∈ sub_runs cls r in_run s → (c ∈ s ∧ cls c = false) ∨ c ∈ r.
Proof.
  revert in_run. induction s as [|x s IH]; intros in_run; cbn [sub_runs].
  - by intros ?%elem_of_nil.
  - destruct (cls x) eqn:Ex.
    + rewrite elem_of_app. intros [Hc|Hc].
      * destruct in_run; [by apply elem_of_nil in Hc|by right].
      * destruct (IH _ Hc) as [[? ?]|?]; [left; split; [by right|done]|by right].
    + rewrite elem_of_cons. intros [->|Hc]; [left; split; [by left|done]|].
      destruct (IH _ Hc) as [[? ?]|?]; [left; split; [by right|done]|by right].
Qed.

Lemma lstrip_subseteq (s : str) (c : char) : c ∈ lstrip s → c ∈ s.
Proof.
  induction s as [|x s IH]; cbn [lstrip]; [done|].
  destruct (isspace x); [|done]. intros Hc. right. by apply IH.
Qed.

Lemma strip_subseteq (s : str) (c : char) : c ∈ strip s → c ∈ s.
Proof.
  unfold strip, rstrip. rewrite elem_of_reverse. intros Hc%lstrip_subseteq.
  rewrite elem_of_reverse in Hc. by apply lstrip_subseteq.
Qed.

Lemma split_chars (sep : char) (s : str) (w : str) (c : char) :
  w ∈ split sep s → c ∈ w → c ∈ s ∧ c ≠ sep.
Proof.
  revert w. induction s as [|x s IH]; intros w; cbn [split].
  - intros ->%list_elem_of_singleton. by intros ?%elem_of_nil.
  - destruct (x =? sep) eqn:Ex.
    + intros [->|Hw]%elem_of_cons Hc; [by apply elem_of_nil in Hc|].
      destruct (IH _ Hw Hc). split; [by right|done].
    + apply N.eqb_neq in Ex.
      destruct (split sep s) as [|w0 ws] eqn:Es.
      * intros ->%list_elem_of_singleton ->%list_elem_of_singleton.
        split; [by left|done].
      * intros [->|Hw]%elem_of_cons Hc.
        -- apply elem_of_cons in Hc as [->|Hc]; [split; [by left|done]|].
           destruct (IH w0 ltac:(by left) Hc). split; [by right|done].
        -- destruct (IH w ltac:(by right) Hc). split; [by right|done].
Qed.

(** Every token of [clean_tokens] is a non-empty run of [0-9a-z]. *)
Lemma clean_tokens_alnum (name : str) (t : str) :
  t ∈ clean_tokens name → t ≠ [] ∧ ∀ c, c ∈ t → non_alnum c = false.
Proof.
  unfold clean_tokens. intros [Ht Hin]%list_elem_of_filter. split; [done|].
  intros c Hc. destruct (split_chars _ _ _ _ Hin Hc) as [Hs Hsep].
  apply strip_subseteq in Hs.
  apply sub_runs_chars in Hs as [[Hs _]|Hs].
  - apply sub_runs_chars in Hs as [[_ ?]|Hs]; [done|].
    by apply list_elem_of_singleton in Hs.
  - by apply list_elem_of_singleton in Hs.
Qed.

Lemma split_no_sep (sep : char) (w : str) : sep ∉ w → split sep w = [w].
Proof.
  induction w as [|x w IH]; [done|].
  intros [Hx Hw]%not_elem_of_cons. cbn [split].
  rewrite (proj2 (N.eqb_neq x sep)) by done. by rewrite IH.
Qed.

Lemma split_app_sep (sep : char) (w rest : str) :
  sep ∉ w → split sep (w ++ sep :: rest) = w :: split sep rest.
Proof.
  induction w as [|x w IH]; intros Hw.
  - cbn [app split]. by rewrite N.eqb_refl.
  - apply not_elem_of_cons in Hw as [Hx Hw]. cbn [app split].
    rewrite (proj2 (N.eqb_neq x sep)) by done. by rewrite IH.
Qed.

(** Joined with one separator and split again, tokens without the
    separator come back. *)
Lemma split_join (sep : char) (l : list str) :
  l ≠ [] → (∀ w, w ∈ l → sep ∉ w) → split sep (join [sep] l) = l.
Proof.
  induction l as [|w l IH]; [done|]. intros _ Hl.
  destruct l as [|w' l].
  - cbn [join]. apply split_no_sep, Hl. by left.
  - change (join [sep] (w :: w' :: l)) with (w ++ sep :: join [sep] (w' :: l)).
    rewrite split_app_sep by (apply Hl; by left).
    rewrite IH; [done|done|]. intros v Hv. apply Hl. by right.
Qed.

Lemma join_nosep (sep : char) (l : list str) :
  (∀ w, w ∈ l → sep ∉ w) →
  join [] l = filter (λ c, c ≠ sep) (join [sep] l).
Proof.
  induction l as [|w l IH]; [done|]. intros Hl.
  assert (filter (λ c, c ≠ sep) w = w) as Hw.
  { apply RefreshFacts.filter_all. intros c Hc ->. by apply (Hl w); [left|]. }
  destruct l as [|w' l]; [by cbn [join]; rewrite Hw|].
  change (join [sep] (w :: w' :: l)) with (w ++ [sep] ++ join [sep] (w' :: l)).
  change (join [] (w :: w' :: l)) with (w ++ [] ++ join [] (w' :: l)).
  rewrite !filter_app, Hw, IH by (intros v Hv; apply Hl; by right).
  by rewrite filter_cons_False by (by intros []).
Qed.

End Facts.

(** *** The loop of [strip_suffix] *)

Lemma strip_pass_prefix (t : list str) : (strip_pass t).1 `prefix_of` t.
Proof.
  unfold strip_pass. destruct (matching_pattern t); [apply prefix_take|].
  destruct (last t); [|done]. case_bool_decide; [apply prefix_take|done].
Qed.

Lemma strip_loop_prefix (fuel : nat) (st st' : list str * bool) (n : nat) :
  strip_loop fuel st = Some (st', n) → st'.1 `prefix_of` st.1.
Proof.
  revert st st' n. induction fuel as [|fuel IH]; intros st st' n; cbn [strip_loop].
  - destruct (strip_cond st); [done|]. by intros [= <- <-].
  - destruct (strip_cond st); [|by intros [= <- <-]].
    destruct (strip_loop fuel (strip_pass st.1)) as [[st1 n1]|] eqn:Hl; [|done].
    intros [= <- <-]. etrans; [by eapply IH|apply strip_pass_prefix].
Qed.

Lemma strip_pass_settled (t : list str) :
  strip_pass t = (t, false) →
  matching_pattern t = None ∧ ∀ x, last t = Some x → x ∉ SUFFIX_TOKENS.
Proof.
  unfold strip_pass. destruct (matching_pattern t); [done|].
  intros H. split; [reflexivity|]. intros x Hx. rewrite Hx in H.
  case_bool_decide; [discriminate H|assumption].
Qed.

(** No pattern of the table ends in a single-token suffix. *)
Lemma pattern_last (pat : list str) (x : str) :
  In pat SUFFIX_PATTERNS → last pat = Some x → x ∉ SUFFIX_TOKENS.
Proof.
  unfold SUFFIX_PATTERNS. cbn [List.map In].
  intros [<-|[<-|[<-|[<-|[]]]]]; intros [= <-]; by vm_compute.
Qed.

Lemma head_slice_snoc {A} (l : list A) (x : A) : head_slice 1 (l ++ [x]) = l.
Proof.
  unfold head_slice. rewrite length_app. cbn [length].
  replace (length l + 1 - 1)%nat with (length l) by lia. apply take_app_length.
Qed.

Lemma last_tail_slice {A} (n : nat) (l : list A) :
  (0 < n)%nat → (n ≤ length l)%nat → last (tail_slice n l) = last l.
Proof.
  intros Hn Hl. unfold tail_slice. rewrite !last_lookup, lookup_drop, length_drop.
  f_equal. lia.
Qed.

(** A legal suffix appended to the tokens is what the first run of the
    body removes. *)
Lemma strip_pass_snoc (toks : list str) (x : str) :
  x ∈ SUFFIX_TOKENS → strip_pass (toks ++ [x]) = (toks, true).
Proof.
  intros Hx. unfold strip_pass.
  destruct (matching_pattern (toks ++ [x])) as [pat|] eqn:Hpat.
  - apply find_some in Hpat as [Hin Hc].
    apply andb_true_iff in Hc as [Hlen%bool_decide_eq_true Htail%bool_decide_eq_true].
    exfalso. apply (pattern_last pat x Hin); [|done].
    rewrite <- Htail, last_tail_slice, last_snoc;
      [done|by apply StripSuffixFacts.pattern_nonempty|done].
  - rewrite last_snoc, bool_decide_eq_true_2 by done. by rewrite head_slice_snoc.
Qed.

Lemma strip_suffix_is_prefix (tokens : list str) :
  strip_suffix tokens `prefix_of` tokens.
Proof.
  destruct (decide (tokens = [])) as [->|Hne]; [done|].
  destruct (StripSuffixFacts.strip_suffix_unfold tokens Hne)
    as (t & c & n & Hloop & -> & _).
  apply strip_loop_prefix in Hloop.
  by destruct t.
Qed.

Lemma strip_suffix_not_nil (tokens : list str) :
  tokens ≠ [] → strip_suffix tokens ≠ [].
Proof.
  intros Hne.
  destruct (StripSuffixFacts.strip_suffix_unfold tokens Hne)
    as (t & c & n & _ & -> & _).
  by destruct t.
Qed.

(** The stripped tokens of a name are tokens of the name. *)
Lemma stripped_token_alnum `{rt : Runtime} (name : str) (w : str) :
  w ∈ strip_suffix (clean_tokens name) →
  w ≠ [] ∧ ∀ c, c ∈ w → non_alnum c = false.
Proof.
  intros Hw. apply (clean_tokens_alnum name).
  eapply elem_of_prefix; [done|apply strip_suffix_is_prefix].
Qed.

End TokenFacts.

(** X1: every token that [clean_tokens] returns is non-empty and made of
    the characters [0-9a-z] only, whatever the name and whatever the
    interpreter's tables. *)
Theorem clean_tokens_wellformed `{rt : Runtime} (name : str) :
  Forall (λ t, t ≠ [] ∧ Forall (λ c, Compare.non_alnum c = false) t)
    (Compare.clean_tokens name).
Proof.
  apply Forall_forall. intros t Ht.
  destruct (TokenFacts.clean_tokens_alnum name t Ht) as [Hne Hc].
  split; [done|]. by apply Forall_forall.
Qed.

(** X2: [strip_suffix] only removes tokens at the end: its result is a
    prefix of the tokens it is given. *)
Theorem strip_suffix_prefix (tokens : list str) :
  Compare.strip_suffix tokens `prefix_of` tokens.
Proof. apply TokenFacts.strip_suffix_is_prefix. Qed.

(** X3: when [strip_suffix] has changed the tokens, what it returns ends
    neither in a multi-token pattern nor in a single-token suffix; only a
    name made of suffixes alone, returned as it came, can still end in
    one. *)
Theorem strip_suffix_leaves_no_suffix (tokens : list str) :
  Compare.strip_suffix tokens ≠ tokens →
  Compare.matching_pattern (Compare.strip_suffix tokens) = None
  ∧ ∀ x, last (Compare.strip_suffix tokens) = Some x → x ∉ Compare.SUFFIX_TOKENS.
Proof.
  intros Hchanged.
  destruct (decide (tokens = [])) as [->|Hne]; [done|].
  destruct (StripSuffixFacts.strip_suffix_unfold tokens Hne)
    as (t & c & n & _ & Hres & Hsettled).
  rewrite Hres in *. destruct t as [|x t]; [done|].
  destruct Hsettled as [|Hsettled]; [done|].
  by apply TokenFacts.strip_pass_settled.
Qed.

Lemma strip_suffix_leaves_no_suffix_witness :
  Compare.matching_pattern (Compare.strip_suffix [py "acme"; py "s"; py "a"]) = None
  ∧ ∀ x, last (Compare.strip_suffix [py "acme"; py "s"; py "a"]) = Some x →
         x ∉ Compare.SUFFIX_TOKENS.
Proof.
  apply (strip_suffix_leaves_no_suffix [py "acme"; py "s"; py "a"]).
  by vm_compute.
Defined.

(** X4: a single-token legal suffix appended to a name does not change
    the stripped tokens, as long as stripping the name itself leaves
    something. *)
Theorem strip_suffix_extra_suffix (toks : list str) (x : str) (t : list str) (c : bool) (n : nat) :
  x ∈ Compare.SUFFIX_TOKENS →
  Compare.strip_loop (length toks) (toks, true) = Some ((t, c), n) →
  t ≠ [] →
  Compare.strip_suffix (toks ++ [x]) = Compare.strip_suffix toks.
Proof.
  intros Hx Hloop Ht.
  assert (Htoks : toks ≠ []).
  { intros ->. rewrite StripSuffixFacts.strip_loop_nil in Hloop.
    injection Hloop as <- _ _. exact (Ht eq_refl). }
  unfold Compare.strip_suffix, Compare.strip_suffix_fuel.
  rewrite length_app. cbn [length].
  replace (length toks + 1)%nat with (S (length toks)) by lia.
  rewrite StripSuffixFacts.strip_loop_step
    by (intros Happ; apply app_eq_nil in Happ as [_ Happ]; discriminate Happ).
  rewrite TokenFacts.strip_pass_snoc, Hloop by assumption.
  destruct toks as [|y toks]; [exact (False_ind _ (Htoks eq_refl))|]. cbn [app].
  destruct t; [exact (False_ind _ (Ht eq_refl))|reflexivity].
Qed.

Lemma strip_suffix_extra_suffix_witness :
  Compare.strip_suffix ([py "acme"; py "holding"] ++ [py "plc"])
  = Compare.strip_suffix [py "acme"; py "holding"].
Proof.
  apply (strip_suffix_extra_suffix [py "acme"; py "holding"] (py "plc")
           [py "acme"] false 2%nat).
  - by vm_compute.
  - by vm_compute.
  - done.
Defined.

(** X5: the NormalizedKey of a name determines its stripped tokens:
    split at the spaces, the key gives the stripped tokens back, for
    every name that has a token at all. *)
Theorem norm_str_split `{rt : Runtime} (name : str) :
  Compare.clean_tokens name ≠ [] →
  split SPACE (Compare.norm_str (Compare.clean_tokens name))
  = Compare.strip_suffix (Compare.clean_tokens name).
Proof.
  intros Hne. unfold Compare.norm_str.
  apply TokenFacts.split_join; [by apply TokenFacts.strip_suffix_not_nil|].
  intros w Hw Hsp.
  destruct (TokenFacts.stripped_token_alnum name w Hw) as [_ Hc].
  by specialize (Hc _ Hsp).
Qed.

Lemma norm_str_split_witness :
  split SPACE (Compare.norm_str (Examples.tokens_of "Assicurazioni Generali S.p.A."))
  = Compare.strip_suffix (Examples.tokens_of "Assicurazioni Generali S.p.A.").
Proof.
  apply (norm_str_split (rt := AsciiTables.runtime) (py "Assicurazioni Generali S.p.A.")).
  by vm_compute.
Defined.

(** X6: the CompactKey of a name is its NormalizedKey without the
    spaces. *)
Theorem compact_str_of_norm_str `{rt : Runtime} (name : str) :
  Compare.compact_str (Compare.clean_tokens name)
  = filter (λ c, c ≠ SPACE) (Compare.norm_str (Compare.clean_tokens name)).
Proof.
  unfold Compare.compact_str, Compare.norm_str.
  apply TokenFacts.join_nosep. intros w Hw Hsp.
  destruct (TokenFacts.stripped_token_alnum name w Hw) as [_ Hc].
  by specialize (Hc _ Hsp).
Qed.

(** ** The index as a function of the reference records *)

Module IndexContents.
Import Compare Invariants.

Section Facts.
Context {rt : Runtime}.

Lemma load_step_cases (idx : index) (e : entry) :
  (load_step idx e = idx ∧ ∀ name, ¬ indexed_name e name)
  ∨ (∃ name, load_step idx e = add_company idx name ∧ indexed_name e name
             ∧ ∀ name', indexed_name e name' → name' = name).
Proof.
  destruct (missing_or_blank e) eqn:Hb.
  - left. split; [by apply IndexFacts.load_step_skips|].
    intros name (n & -> & Hn & _). by rewrite Hb in Hn.
  - destruct e as [|[n|]]; [|right|done].
    + left. split; [done|]. by intros name (n & ? & _).
    + exists (to_str n). split; [by apply IndexFacts.load_step_adds|].
      split; [by exists n|]. by intros name' (n' & [= <-] & _ & ->).
Qed.

Lemma listed_add_company (idx : index) (name tok ns : str) :
  listed (add_company idx name) tok ns
  ↔ listed idx tok ns
    ∨ (tok ∈ strip_suffix (clean_tokens name) ∧ ns = norm_str (clean_tokens name)).
Proof.
  unfold listed, add_company. cbn [token_index].
  rewrite IndexFacts.lookup_foldl_register.
  destruct (decide (tok ∈ strip_suffix (clean_tokens name))) as [Hin|Hin].
  - split.
    + intros (keys & [= <-] & Hns). apply elem_of_union in Hns as [Hns|Hns].
      * left. destruct (token_index idx !! tok) as [k|]; [by exists k|].
        by apply elem_of_empty in Hns.
      * right. by apply elem_of_singleton in Hns.
    + intros [(keys & Hk & Hns)|[_ ->]]; eexists; (split; [done|]).
      * rewrite Hk. apply elem_of_union. by left.
      * apply elem_of_union. right. by apply elem_of_singleton.
  - split; [by left|]. by intros [?|[? _]].
Qed.

(** What the index holds, record by record. *)
Lemma load_contents (data : list entry) :
  (∀ ns, ns ∈ existing_norm (load_existing_companies data)
         ↔ ∃ e name, e ∈ data ∧ indexed_name e name
                     ∧ ns = norm_str (clean_tokens name))
  ∧ (∀ cs, cs ∈ existing_compact (load_existing_companies data)
           ↔ ∃ e name, e ∈ data ∧ indexed_name e name
                       ∧ cs = compact_str (clean_tokens name))
  ∧ (∀ tok ns, listed (load_existing_companies data) tok ns
               ↔ ∃ e name, e ∈ data ∧ indexed_name e name
                           ∧ tok ∈ strip_suffix (clean_tokens name)
                           ∧ ns = norm_str (clean_tokens name)).
Proof.
  induction data as [|e data (IHn & IHc & IHt)] using rev_ind.
  - split; [|split].
    + intros ns. split; [by intros ?%elem_of_empty|].
      by intros (e & ? & ?%elem_of_nil & _).
    + intros cs. split; [by intros ?%elem_of_empty|].
      by intros (e & ? & ?%elem_of_nil & _).
    + intros tok ns. split; [by intros (keys & ? & _)|].
      by intros (e & ? & ?%elem_of_nil & _).
  - rewrite IndexFacts.load_app. cbn [foldl].
    destruct (load_step_cases (load_existing_companies data) e)
      as [[-> Hnone]|(name & -> & Hname & Honly)].
    + split; [|split]; intros; [rewrite IHn|rewrite IHc|rewrite IHt];
        (split; intros (e' & name' & Hin & Hrest);
         [exists e', name'; split; [apply elem_of_app; by left|done]|];
         apply elem_of_app in Hin as [Hin| ->%list_elem_of_singleton];
         [by exists e', name'|by destruct Hrest as [?%Hnone _]]).
    + split; [|split].
      * intros ns. cbn [add_company existing_norm].
        rewrite elem_of_union, elem_of_singleton, IHn. split.
        -- intros [(e' & name' & Hin & Hrest)| ->].
           ++ exists e', name'. split; [apply elem_of_app; by left|done].
           ++ exists e, name. split; [apply elem_of_app; right; by left|done].
        -- intros (e' & name' & [Hin| ->%list_elem_of_singleton]%elem_of_app & Hn' & ->).
           ++ left. by exists e', name'.
           ++ right. by rewrite (Honly _ Hn').
      * intros cs. cbn [add_company existing_compact].
        rewrite elem_of_union, elem_of_singleton, IHc. split.
        -- intros [(e' & name' & Hin & Hrest)| ->].
           ++ exists e', name'. split; [apply elem_of_app; by left|done].
           ++ exists e, name. split; [apply elem_of_app; right; by left|done].
        -- intros (e' & name' & [Hin| ->%list_elem_of_singleton]%elem_of_app & Hn' & ->).
           ++ left. by exists e', name'.
           ++ right. by rewrite (Honly _ Hn').
      * intros tok ns. rewrite listed_add_company, IHt. split.
        -- intros [(e' & name' & Hin & Hrest)|[Htok ->]].
           ++ exists e', name'. split; [apply elem_of_app; by left|done].
           ++ exists e, name. split; [apply elem_of_app; right; by left|done].
        -- intros (e' & name' & [Hin| ->%list_elem_of_singleton]%elem_of_app & Hn' & Htok & ->).
           ++ left. by exists e', name'.
           ++ right. by rewrite <- (Honly _ Hn').
Qed.

(** No token of the index has an empty set of keys. *)
Lemma load_nonempty_keys (data : list entry) (tok : str) (keys : gset str) :
  token_index (load_existing_companies data) !! tok = Some keys → keys ≠ ∅.
Proof.
  revert tok keys. induction data as [|e data IH] using rev_ind; intros tok keys.
  - change (token_index (load_existing_companies [])) with (∅ : gmap str (gset str)).
    by rewrite lookup_empty.
  - rewrite IndexFacts.load_app. cbn [foldl].
    destruct (load_step_cases (load_existing_companies data) e)
      as [[-> _]|(name & -> & _)]; [apply IH|].
    cbn [add_company token_index]. rewrite IndexFacts.lookup_foldl_register.
    case_decide; [|apply IH]. intros [= <-] Hempty.
    assert (norm_str (clean_tokens name) ∈ (∅ : gset str)) as Hin.
    { rewrite <- Hempty. apply elem_of_union. right. by apply elem_of_singleton. }
    by apply elem_of_empty in Hin.
Qed.

(** Two lists with the same records give the same index. *)
Lemma load_same_records (data1 data2 : list entry) :
  (∀ e, e ∈ data1 ↔ e ∈ data2) →
  load_existing_companies data1 = load_existing_companies data2.
Proof.
  intros Hsame.
  destruct (load_contents data1) as (Hn1 & Hc1 & Ht1).
  destruct (load_contents data2) as (Hn2 & Hc2 & Ht2).
  pose proof (load_nonempty_keys data1) as Hne1.
  pose proof (load_nonempty_keys data2) as Hne2.
  assert (Hlisted : ∀ tok ns, listed (load_existing_companies data1) tok ns
                              ↔ listed (load_existing_companies data2) tok ns).
  { intros tok ns. rewrite Ht1, Ht2.
    split; intros (e & name & Hin & Hrest); exists e, name;
      (split; [by apply Hsame|done]). }
  destruct (load_existing_companies data1) as [n1 c1 t1].
  destruct (load_existing_companies data2) as [n2 c2 t2].
  cbn [existing_norm existing_compact token_index] in *. f_equal.
  - apply set_eq. intros ns. rewrite Hn1, Hn2.
    split; intros (e & name & Hin & Hrest); exists e, name;
      (split; [by apply Hsame|done]).
  - apply set_eq. intros cs. rewrite Hc1, Hc2.
    split; intros (e & name & Hin & Hrest); exists e, name;
      (split; [by apply Hsame|done]).
  - apply map_eq. intros tok. unfold listed in Hlisted. cbn [token_index] in Hlisted.
    destruct (t1 !! tok) as [k1|] eqn:E1; destruct (t2 !! tok) as [k2|] eqn:E2.
    + f_equal. apply set_eq. intros ns. split; intros Hns.
      * destruct (proj1 (Hlisted tok ns)) as (k & Hk & ?); [by exists k1|].
        rewrite E2 in Hk. by injection Hk as <-.
      * destruct (proj2 (Hlisted tok ns)) as (k & Hk & ?); [by exists k2|].
        rewrite E1 in Hk. by injection Hk as <-.
    + destruct (set_choose_L k1 (Hne1 _ _ E1)) as [ns Hns].
      destruct (proj1 (Hlisted tok ns)) as (k & Hk & ?); [by exists k1|].
      by rewrite E2 in Hk.
    + destruct (set_choose_L k2 (Hne2 _ _ E2)) as [ns Hns].
      destruct (proj2 (Hlisted tok ns)) as (k & Hk & ?); [by exists k2|].
      by rewrite E1 in Hk.
    + done.
Qed.

End Facts.

End IndexContents.

(** ** The rules against a growing index *)

Module RuleFacts.
Import Compare Invariants.

Section Facts.
Context {rt : Runtime}.

Lemma split_norm_str (name : str) :
  clean_tokens name ≠ [] →
  split SPACE (norm_str (clean_tokens name)) = strip_suffix (clean_tokens name).
Proof.
  intros Hne. unfold norm_str.
  apply TokenFacts.split_join; [by apply TokenFacts.strip_suffix_not_nil|].
  intros w Hw Hsp.
  destruct (TokenFacts.stripped_token_alnum name w Hw) as [_ Hc].
  by specialize (Hc _ Hsp).
Qed.

Lemma grows_lookup (i1 i2 : index) (tok : str) :
  grows i1 i2 → is_Some (token_index i1 !! tok) → is_Some (token_index i2 !! tok).
Proof.
  intros (_ & _ & Ht) [keys Hk]. destruct (Ht _ _ Hk) as (keys' & -> & _). done.
Qed.

Lemma rule_exact_grows (stripped : list str) (i1 i2 : index) :
  grows i1 i2 → rule_exact stripped i1 = true → rule_exact stripped i2 = true.
Proof.
  intros (Hn & Hc & _). unfold rule_exact. rewrite !orb_true_iff.
  intros [H%bool_decide_eq_true|H%bool_decide_eq_true].
  - left. apply bool_decide_eq_true. by apply Hn.
  - right. apply bool_decide_eq_true. by apply Hc.
Qed.

Lemma rule_single_token_grows (stripped : list str) (i1 i2 : index) :
  grows i1 i2 →
  rule_single_token stripped i1 = true → rule_single_token stripped i2 = true.
Proof.
  intros Hg. unfold rule_single_token.
  destruct stripped as [|tok [|? ?]]; try done.
  intros H%bool_decide_eq_true. apply bool_decide_eq_true.
  by eapply grows_lookup.
Qed.

Lemma rule_acronym_grows (toks : list str) (i1 i2 : index) :
  grows i1 i2 → rule_acronym toks i1 = true → rule_acronym toks i2 = true.
Proof.
  intros Hg. unfold rule_acronym. rewrite !andb_true_iff, !orb_true_iff.
  intros [Hlen [H%bool_decide_eq_true|H%bool_decide_eq_true]]; (split; [done|]).
  - left. apply bool_decide_eq_true. destruct Hg as (Hn & _). by apply Hn.
  - right. apply bool_decide_eq_true. by eapply grows_lookup.
Qed.

Lemma rule_symbol_grows (r : row) (i1 i2 : index) :
  grows i1 i2 → rule_symbol r i1 = true → rule_symbol r i2 = true.
Proof.
  intros Hg. unfold rule_symbol.
  destruct (symbol_base (get_or_empty r (py "Symbol"))) as [|c sym]; [done|].
  destruct (clean_tokens (c :: sym)) as [|t toks] eqn:Etoks; [done|].
  destruct (bool_decide (norm_str (t :: toks) ∈ existing_norm i1)
            || bool_decide (compact_str (t :: toks) ∈ existing_compact i1)) eqn:E1.
  - intros _.
    assert (bool_decide (norm_str (t :: toks) ∈ existing_norm i2)
            || bool_decide (compact_str (t :: toks) ∈ existing_compact i2) = true)
      as ->; [|done].
    destruct Hg as (Hn & Hc & _).
    apply orb_true_iff in E1 as [H%bool_decide_eq_true|H%bool_decide_eq_true];
      apply orb_true_iff; [left|right]; apply bool_decide_eq_true; auto.
  - destruct (bool_decide (norm_str (t :: toks) ∈ existing_norm i2)
              || bool_decide (compact_str (t :: toks) ∈ existing_compact i2));
      [done|].
    destruct (strip_suffix (t :: toks)) as [|tok [|? ?]]; try done.
    intros H%bool_decide_eq_true. apply bool_decide_eq_true.
    by eapply grows_lookup.
Qed.

(** The keys the loop of rule 5 has gathered: all the keys of the key
    tokens, unless it has stopped on more than five. *)
Lemma collect_spec (ti : gmap str (gset str)) (keys : list str) (acc : gset str) :
  collect ti keys acc ⊆ acc ∪ ⋃ ((λ t, default ∅ (ti !! t)) <$> keys)
  ∧ (collect ti keys acc = acc ∪ ⋃ ((λ t, default ∅ (ti !! t)) <$> keys)
     ∨ (5 < size (collect ti keys acc))%nat).
Proof.
  revert acc. induction keys as [|t keys IH]; intros acc.
  - cbn [collect]. rewrite fmap_nil, union_list_nil, (right_id_L ∅ (∪)).
    split; [done|by left].
  - cbn [collect]. rewrite fmap_cons, union_list_cons.
    case_bool_decide as Hsize.
    + split; [|by right]. apply union_mono_l, union_subseteq_l.
    + destruct (IH (acc ∪ default ∅ (ti !! t))) as [Hsub Hcase].
      rewrite <- (assoc_L (∪)) in Hsub, Hcase. done.
Qed.

Lemma rule_key_token_union (stripped : list str) (idx : index) :
  rule_key_token stripped idx
  = bool_decide
      (size (⋃ ((λ t, default ∅ (token_index idx !! t)) <$> key_tokens stripped)
             : gset str) = 1%nat).
Proof.
  unfold rule_key_token.
  destruct (collect_spec (token_index idx) (key_tokens stripped) ∅) as [Hsub Hcase].
  rewrite (left_id_L ∅ (∪)) in Hsub, Hcase.
  destruct Hcase as [->|Hbig]; [done|].
  pose proof (subseteq_size _ _ Hsub) as Hle.
  rewrite !bool_decide_eq_false_2 by lia. done.
Qed.

End Facts.

End RuleFacts.

(** ** Properties of the reference index *)

(** X7: the index holds what the named reference records give it and
    nothing else: a key is in the NormalizedKey set, or in the CompactKey
    set, exactly when it is the key of a record with a name; a key is
    listed under a token exactly when it is the NormalizedKey of a record
    with a name whose stripped tokens contain the token. *)
Theorem index_contents `{rt : Runtime} (data : list Compare.entry) (tok key : str) :
  (key ∈ Compare.existing_norm (Compare.load_existing_companies data)
   ↔ ∃ n, Compare.Dict (Some n) ∈ data
          ∧ Compare.missing_or_blank (Compare.Dict (Some n)) = false
          ∧ key = Compare.norm_str (Compare.clean_tokens (Compare.to_str n)))
  ∧ (key ∈ Compare.existing_compact (Compare.load_existing_companies data)
     ↔ ∃ n, Compare.Dict (Some n) ∈ data
            ∧ Compare.missing_or_blank (Compare.Dict (Some n)) = false
            ∧ key = Compare.compact_str (Compare.clean_tokens (Compare.to_str n)))
  ∧ ((∃ keys, Compare.token_index (Compare.load_existing_companies data) !! tok
                = Some keys ∧ key ∈ keys)
     ↔ ∃ n, Compare.Dict (Some n) ∈ data
            ∧ Compare.missing_or_blank (Compare.Dict (Some n)) = false
            ∧ tok ∈ Compare.strip_suffix (Compare.clean_tokens (Compare.to_str n))
            ∧ key = Compare.norm_str (Compare.clean_tokens (Compare.to_str n))).
Proof.
  destruct (IndexContents.load_contents data) as (Hn & Hc & Ht).
  split; [|split].
  - rewrite Hn. split.
    + intros (e & name & Hin & (n & -> & Hb & ->) & ->). by exists n.
    + intros (n & Hin & Hb & ->). exists (Compare.Dict (Some n)), (Compare.to_str n).
      split; [done|]. split; [by exists n|done].
  - rewrite Hc. split.
    + intros (e & name & Hin & (n & -> & Hb & ->) & ->). by exists n.
    + intros (n & Hin & Hb & ->). exists (Compare.Dict (Some n)), (Compare.to_str n).
      split; [done|]. split; [by exists n|done].
  - fold (Invariants.listed (Compare.load_existing_companies data) tok key).
    rewrite Ht. split.
    + intros (e & name & Hin & (n & -> & Hb & ->) & Htok & ->). by exists n.
    + intros (n & Hin & Hb & Htok & ->).
      exists (Compare.Dict (Some n)), (Compare.to_str n).
      split; [done|]. split; [by exists n|done].
Qed.

(** X8: in the index of any reference data, the set of keys under a
    token is never empty, each of its keys is in the NormalizedKey set,
    and the token is one of the words of each of its keys. *)
Theorem index_token_keys `{rt : Runtime} (data : list Compare.entry) (tok : str) (keys : gset str) :
  Compare.token_index (Compare.load_existing_companies data) !! tok = Some keys →
  keys ≠ ∅
  ∧ ∀ key, key ∈ keys →
      key ∈ Compare.existing_norm (Compare.load_existing_companies data)
      ∧ tok ∈ split SPACE key.
Proof.
  intros Hk. split; [by eapply IndexContents.load_nonempty_keys|].
  intros key Hkey.
  destruct (IndexContents.load_contents data) as (Hn & _ & Ht).
  destruct (proj1 (Ht tok key)) as (e & name & Hin & Hname & Htok & ->);
    [by exists keys|].
  split; [apply Hn; by exists e, name|].
  rewrite RuleFacts.split_norm_str; [done|].
  intros Hnil. rewrite Hnil in Htok.
  change (Compare.strip_suffix []) with (@nil (list N)) in Htok.
  by apply elem_of_nil in Htok.
Qed.

Lemma index_token_keys_witness :
  ({[ py "assicurazioni generali" ]} : gset str) ≠ ∅
  ∧ ∀ key, key ∈ ({[ py "assicurazioni generali" ]} : gset str) →
      key ∈ Compare.existing_norm (Examples.index_of ["Assicurazioni Generali S.p.A."]%string)
      ∧ py "generali" ∈ split SPACE key.
Proof.
  apply (index_token_keys (rt := AsciiTables.runtime)
           (Examples.reference <$> ["Assicurazioni Generali S.p.A."]%string)
           (py "generali")).
  vm_compute. reflexivity.
Defined.

(** X9: the index depends on which records the reference data holds and
    not on their order nor on how often each one occurs. *)
Theorem index_same_records `{rt : Runtime} (data1 data2 : list Compare.entry) :
  (∀ e, e ∈ data1 ↔ e ∈ data2) →
  Compare.load_existing_companies data1 = Compare.load_existing_companies data2.
Proof. apply IndexContents.load_same_records. Qed.

Lemma index_same_records_witness :
  Compare.load_existing_companies (rt := AsciiTables.runtime)
    [Examples.reference "Acme"; Examples.reference "Generali"; Examples.reference "Acme"]
  = Compare.load_existing_companies (rt := AsciiTables.runtime)
      [Examples.reference "Generali"; Examples.reference "Acme"].
Proof.
  apply (index_same_records (rt := AsciiTables.runtime)).
  intros e. rewrite !elem_of_cons, elem_of_nil. tauto.
Defined.

(** ** Properties of the match rules *)

(** X10: a candidate whose name has the NormalizedKey, or the CompactKey,
    of a reference record with a name is always found: rule 1 fires,
    whatever the other records and the other fields of the row. *)
Theorem same_key_is_found `{rt : Runtime} (data : list Compare.entry) (n : Compare.jname) (r : Compare.row) :
  Compare.Dict (Some n) ∈ data →
  Compare.missing_or_blank (Compare.Dict (Some n)) = false →
  Compare.norm_str (Compare.clean_tokens (Compare.get_or_empty r (py "Name")))
    = Compare.norm_str (Compare.clean_tokens (Compare.to_str n))
  ∨ Compare.compact_str (Compare.clean_tokens (Compare.get_or_empty r (py "Name")))
    = Compare.compact_str (Compare.clean_tokens (Compare.to_str n)) →
  Compare.rule_exact
    (Compare.strip_suffix (Compare.clean_tokens (Compare.get_or_empty r (py "Name"))))
    (Compare.load_existing_companies data) = true
  ∧ Compare.row_exists r (Compare.load_existing_companies data) = true.
Proof.
  intros Hin Hn Hkey.
  apply list_elem_of_split in Hin as (data1 & data2 & ->).
  destruct (IndexFacts.load_holds data1 data2 n Hn) as (Hnorm & Hcompact & _).
  assert (Compare.rule_exact
            (Compare.strip_suffix
               (Compare.clean_tokens (Compare.get_or_empty r (py "Name"))))
            (Compare.load_existing_companies (data1 ++ Compare.Dict (Some n) :: data2))
          = true) as H1.
  { unfold Compare.rule_exact. apply orb_true_iff.
    destruct Hkey as [Hkey|Hkey]; [left|right]; apply bool_decide_eq_true.
    - unfold Compare.norm_str in Hkey at 1. by rewrite Hkey.
    - unfold Compare.compact_str in Hkey at 1. by rewrite Hkey. }
  split; [done|]. unfold Compare.row_exists. by rewrite H1.
Qed.

Lemma same_key_is_found_witness :
  Compare.row_exists (rt := AsciiTables.runtime)
    (Examples.candidate "BANCO-BILBAO Vizcaya Argentaria, S.A." "")
    (Compare.load_existing_companies (rt := AsciiTables.runtime)
       [Examples.reference "Acme"; Examples.reference "Banco Bilbao Vizcaya Argentaria"])
  = true.
Proof.
  apply (same_key_is_found (rt := AsciiTables.runtime)
           [Examples.reference "Acme"; Examples.reference "Banco Bilbao Vizcaya Argentaria"]
           (Compare.JString (py "Banco Bilbao Vizcaya Argentaria"))
           (Examples.candidate "BANCO-BILBAO Vizcaya Argentaria, S.A." "")).
  - right. left.
  - reflexivity.
  - left. vm_compute. reflexivity.
Defined.

(** X11: reference records added to the data never undo a match made by
    one of the rules 1 to 4: a candidate on which one of them fires is
    still found with the longer data. *)
Theorem more_references_keep_matches `{rt : Runtime} (data more : list Compare.entry) (r : Compare.row) :
  Compare.rule_exact
    (Compare.strip_suffix (Compare.clean_tokens (Compare.get_or_empty r (py "Name"))))
    (Compare.load_existing_companies data)
  || Compare.rule_symbol r (Compare.load_existing_companies data)
  || Compare.rule_single_token
       (Compare.strip_suffix (Compare.clean_tokens (Compare.get_or_empty r (py "Name"))))
       (Compare.load_existing_companies data)
  || Compare.rule_acronym
       (Compare.clean_tokens (Compare.get_or_empty r (py "Name")))
       (Compare.load_existing_companies data) = true →
  Compare.row_exists r (Compare.load_existing_companies (data ++ more)) = true.
Proof.
  intros Hfires.
  assert (Hg : Invariants.grows (Compare.load_existing_companies data)
                 (Compare.load_existing_companies (data ++ more))).
  { rewrite IndexFacts.load_app. apply IndexFacts.foldl_load_step_grows. }
  rewrite MatchFacts.row_exists_rules. cbv zeta.
  rewrite !orb_true_iff in Hfires. rewrite !orb_true_iff.
  destruct Hfires as [[[H|H]|H]|H].
  - left; left; left; left. by eapply RuleFacts.rule_exact_grows.
  - left; left; left; right. by eapply RuleFacts.rule_symbol_grows.
  - left; left; right. by eapply RuleFacts.rule_single_token_grows.
  - left; right. by eapply RuleFacts.rule_acronym_grows.
Qed.

Lemma more_references_keep_matches_witness :
  Compare.row_exists (rt := AsciiTables.runtime)
    (Examples.candidate "Generali" "")
    (Compare.load_existing_companies (rt := AsciiTables.runtime)
       ([Examples.reference "Assicurazioni Generali"]
        ++ [Examples.reference "Generali Deutschland"]))
  = true.
Proof.
  apply (more_references_keep_matches (rt := AsciiTables.runtime)
           [Examples.reference "Assicurazioni Generali"]
           [Examples.reference "Generali Deutschland"]
           (Examples.candidate "Generali" "")).
  vm_compute. reflexivity.
Defined.

(** X12: rule 5 fires exactly when the keys listed under the key tokens
    of the candidate, taken all together, are one single key: the early
    exit of the loop on more than five keys never changes the outcome,
    and neither does the order of the tokens. *)
Theorem rule_key_token_is_unique_key `{rt : Runtime} (stripped : list str) (idx : Compare.index) :
  Compare.rule_key_token stripped idx
  = bool_decide
      (size (⋃ ((λ t, default ∅ (Compare.token_index idx !! t))
                <$> Compare.key_tokens stripped) : gset str) = 1%nat).
Proof. apply RuleFacts.rule_key_token_union. Qed.

(** X13: a match by rule 5 rests on a specific token: when the rule
    fires, the keys gathered are a single key, and it is listed in the
    index under a stripped token of the candidate that has at least five
    characters and is neither a generic word nor a stop word. *)
Theorem rule_key_token_backed `{rt : Runtime} (stripped : list str) (idx : Compare.index) :
  Compare.rule_key_token stripped idx = true →
  ∃ key t keys,
    Compare.collect (Compare.token_index idx) (Compare.key_tokens stripped) ∅ = {[ key ]}
    ∧ t ∈ stripped
    ∧ (5 ≤ length t)%nat
    ∧ (t ∉ Compare.GENERIC_TOKENS)
    ∧ (t ∉ Compare.STOPWORDS)
    ∧ Compare.token_index idx !! t = Some keys
    ∧ key ∈ keys.
Proof.
  unfold Compare.rule_key_token. intros Hsize%bool_decide_eq_true.
  destruct (size_1_elem_of _ Hsize) as [key Hkey].
  apply leibniz_equiv in Hkey.
  destruct (RuleFacts.collect_spec (Compare.token_index idx)
              (Compare.key_tokens stripped) ∅) as [Hsub _].
  rewrite (left_id_L ∅ (∪)), Hkey in Hsub.
  assert (key ∈ ⋃ ((λ t, default ∅ (Compare.token_index idx !! t))
                    <$> Compare.key_tokens stripped)) as Hin.
  { apply Hsub. by apply elem_of_singleton. }
  apply elem_of_union_list in Hin as (X & HX & HkeyX).
  apply list_elem_of_fmap in HX as (t & -> & Ht).
  unfold Compare.key_tokens in Ht.
  apply list_elem_of_filter in Ht as [[[Hlen Hgen] Hstop] Ht].
  destruct (Compare.token_index idx !! t) as [keys|] eqn:Ekeys;
    [|by apply elem_of_empty in HkeyX].
  exists key, t, keys. repeat split; assumption.
Qed.

Lemma rule_key_token_backed_witness :
  ∃ key t keys,
    Compare.collect
      (Compare.token_index (Examples.index_of ["Assicurazioni Generali"]%string))
      (Compare.key_tokens (Examples.tokens_of "Generali Deutschland Versicherung")) ∅
    = {[ key ]}
    ∧ t ∈ Examples.tokens_of "Generali Deutschland Versicherung"
    ∧ (5 ≤ length t)%nat
    ∧ (t ∉ Compare.GENERIC_TOKENS)
    ∧ (t ∉ Compare.STOPWORDS)
    ∧ Compare.token_index (Examples.index_of ["Assicurazioni Generali"]%string) !! t
      = Some keys
    ∧ key ∈ keys.
Proof.
  apply (rule_key_token_backed (rt := AsciiTables.runtime)
           (Examples.tokens_of "Generali Deutschland Versicherung")
           (Examples.index_of ["Assicurazioni Generali"]%string)).
  vm_compute. reflexivity.
Defined.

(** X14: the loop of [main] sorts every candidate row into one of two
    sides: the rows written as missing are the rows that are not found,
    in the order of the input, the count of matches is the number of the
    rows that are found, and the two add up to the number of rows. *)
Theorem main_loop_conservation `{rt : Runtime} (mc_rows : list Compare.row) (idx : Compare.index) :
  (Compare.main_loop mc_rows idx).1
    = filter (λ r, Compare.row_exists r idx = false) mc_rows
  ∧ (Compare.main_loop mc_rows idx).2
    = length (filter (λ r, Compare.row_exists r idx = true) mc_rows)
  ∧ ((Compare.main_loop mc_rows idx).2 + length (Compare.main_loop mc_rows idx).1
     = length mc_rows)%nat.
Proof.
  assert (∀ missing matched,
    foldl (λ '(missing, matched) r,
             if Compare.row_exists r idx then (missing, S matched)
             else (missing ++ [r], matched))
      (missing, matched) mc_rows
    = (missing ++ filter (λ r, Compare.row_exists r idx = false) mc_rows,
       (matched + length (filter (λ r, Compare.row_exists r idx = true) mc_rows))%nat))
    as Hloop.
  { induction mc_rows as [|r rows IH]; intros missing matched.
    - cbn [foldl]. rewrite app_nil_r. cbn. f_equal. lia.
    - cbn [foldl]. destruct (Compare.row_exists r idx) eqn:E; rewrite IH.
      + rewrite filter_cons_False by (by rewrite E).
        rewrite filter_cons_True by done. cbn [length]. f_equal. lia.
      + rewrite filter_cons_True by done.
        rewrite filter_cons_False by (by rewrite E).
        by rewrite <- app_assoc. }
  unfold Compare.main_loop. rewrite Hloop. cbn [fst snd app].
  split; [done|]. split; [done|].
  clear Hloop. induction mc_rows as [|r rows IH]; [done|].
  destruct (Compare.row_exists r idx) eqn:E.
  - rewrite filter_cons_True by done.
    rewrite (filter_cons_False (λ r, Compare.row_exists r idx = false))
      by (by rewrite E).
    cbn [length]. lia.
  - rewrite filter_cons_False by (by rewrite E).
    rewrite (filter_cons_True (λ r, Compare.row_exists r idx = false)) by done.
    cbn [length]. lia.
Qed.

(** ** CSV rows *)

Module CsvFacts.
Import Compare.

Lemma lookup_foldl_zip_nodup (F line : list str) (d : gmap str (option str)) (i : nat) (k : str) :
  NoDup F → F !! i = Some k →
  foldl (λ d kv, <[kv.1 := Some kv.2]> d) d (zip F line) !! k
  = match line !! i with
    | Some v => Some (Some v)
    | None => d !! k
    end.
Proof.
  revert line d i. induction F as [|x F IH]; intros line d i Hnd Hi; [done|].
  apply NoDup_cons in Hnd as [Hx Hnd].
  destruct line as [|v line]; [done|].
  cbn [zip zip_with foldl fst snd].
  destruct i as [|i]; cbn [lookup list_lookup] in Hi |- *.
  - injection Hi as ->.
    rewrite RefreshFacts.lookup_foldl_zip_other by done.
    by rewrite lookup_insert_eq.
  - rewrite (IH line _ i) by done.
    destruct (line !! i); [done|]. apply lookup_insert_ne.
    intros ->. apply Hx. by eapply list_elem_of_lookup_2.
Qed.

Lemma lookup_foldl_none (keys : list str) (d : gmap str (option str)) (k : str) :
  foldl (λ d key, <[key := None]> d) d keys !! k
  = if decide (k ∈ keys) then Some None else d !! k.
Proof.
  revert d. induction keys as [|x keys IH]; intros d.
  - cbn [foldl]. destruct (decide (k ∈ [])) as [H|]; [|done]. by apply elem_of_nil in H.
  - cbn [foldl]. rewrite IH.
    destruct (decide (k ∈ keys)) as [Hl|Hl];
      destruct (decide (k ∈ x :: keys)) as [Hxl|Hxl]; try done.
    + destruct Hxl. by right.
    + apply elem_of_cons in Hxl as [->|?]; [|done]. by rewrite lookup_insert_eq.
    + rewrite lookup_insert_ne; [done|]. intros ->. apply Hxl. by left.
Qed.

(** Under the [i]-th of distinct field names a row holds the [i]-th cell
    of its line, or nothing when the line is too short. *)
Lemma dict_row_cell (F line : list str) (i : nat) (k : str) :
  NoDup F → F !! i = Some k →
  get_or_empty (dict_row F line) k = default [] (line !! i).
Proof.
  intros Hnd Hi. unfold dict_row, get_or_empty.
  assert (Hlt : (i < length F)%nat) by (apply lookup_lt_is_Some; by eexists).
  case_bool_decide as Hlen; cbn [fields].
  - rewrite (lookup_foldl_zip_nodup F line ∅ i) by done.
    destruct (line !! i) as [v|] eqn:Ev; [done|].
    apply lookup_ge_None in Ev. lia.
  - rewrite lookup_foldl_none.
    destruct (decide (k ∈ drop (length line) F)) as [Hin|Hin].
    + apply list_elem_of_lookup in Hin as [j Hj]. rewrite lookup_drop in Hj.
      pose proof (NoDup_lookup _ _ _ _ Hnd Hi Hj) as ->.
      rewrite (proj2 (lookup_ge_None line _)) by lia. done.
    + rewrite (lookup_foldl_zip_nodup F line ∅ i) by done.
      destruct (line !! i) as [v|] eqn:Ev; [done|].
      apply lookup_ge_None in Ev. destruct Hin.
      apply list_elem_of_lookup. exists (i - length line)%nat.
      rewrite lookup_drop. by replace (length line + (i - length line))%nat with i by lia.
Qed.

Lemma cells_dict_row (F line : list str) :
  NoDup F →
  cells F (dict_row F line)
  = take (length F) (line ++ replicate (length F - length line) []).
Proof.
  intros Hnd. apply list_eq. intros i. unfold cells.
  rewrite list_lookup_fmap.
  destruct (F !! i) as [k|] eqn:Hi.
  - assert (Hlt : (i < length F)%nat) by (apply lookup_lt_is_Some; by eexists).
    cbn [fmap option_fmap option_map]. rewrite (dict_row_cell F line i) by done.
    rewrite lookup_take_lt by done.
    destruct (decide (i < length line)%nat) as [Hl|Hl].
    + rewrite lookup_app_l by done.
      destruct (lookup_lt_is_Some_2 line i Hl) as [v ->]. done.
    + rewrite lookup_app_r by lia.
      rewrite (proj2 (lookup_ge_None line i)) by lia.
      by rewrite lookup_replicate_2 by lia.
  - apply lookup_ge_None in Hi. cbn. symmetry. apply lookup_ge_None.
    rewrite length_take. lia.
Qed.

End CsvFacts.

(** ** Properties of the CSV rows *)

(** X15: a row read under distinct field names and written back under
    them is the line it was read from, cut to the number of fields when
    it is longer and filled up with empty cells when it is shorter. *)
Theorem row_written_back (fieldnames line : list str) :
  NoDup fieldnames →
  cells fieldnames (dict_row fieldnames line)
  = take (length fieldnames)
      (line ++ replicate (length fieldnames - length line) []).
Proof. apply CsvFacts.cells_dict_row. Qed.

Lemma row_written_back_witness :
  cells [py "Name"; py "Symbol"; py "Cap"] (dict_row [py "Name"; py "Symbol"; py "Cap"] [py "Acme"])
  = take 3 ([py "Acme"] ++ replicate (3 - 1) []).
Proof.
  apply (row_written_back [py "Name"; py "Symbol"; py "Cap"] [py "Acme"]).
  repeat constructor; rewrite ?elem_of_cons, ?elem_of_nil; by vm_compute; intuition.
Defined.

(** X16: read and written back, a file whose header has distinct, and at
    least one, field names and whose records all have as many cells as
    the header keeps its records: the file written has the same header
    and, record by record, the same cells as the file read.  This is
    about the records of the two files, not about their text: byte
    order mark, line ends and quoting are the writer's. *)
Theorem read_then_write (header : list str) (lines : list (list str)) :
  NoDup header → header ≠ [] →
  Forall (λ line, length line = length header) lines →
  write_csv header (read_csv (header :: lines)).2 = header :: lines.
Proof.
  intros Hnd Hne Hlines. unfold write_csv. cbn [read_csv snd]. f_equal.
  rewrite RefreshFacts.filter_all.
  - rewrite <- list_fmap_compose. rewrite <- (list_fmap_id lines) at 2.
    apply Forall_fmap_ext_1. eapply Forall_impl; [done|].
    intros line Hlen. unfold compose. rewrite CsvFacts.cells_dict_row by done.
    rewrite Hlen, Nat.sub_diag. cbn [replicate]. rewrite app_nil_r.
    rewrite <- Hlen. apply firstn_all.
  - intros line Hin ->. rewrite Forall_forall in Hlines.
    specialize (Hlines _ Hin). destruct header; [done|discriminate Hlines].
Qed.

Lemma read_then_write_witness :
  write_csv [py "Name"; py "Symbol"]
    (read_csv ([py "Name"; py "Symbol"] :: [[py "Acme"; py "ACM.L"]; [py "Foo"; []]])).2
  = [py "Name"; py "Symbol"] :: [[py "Acme"; py "ACM.L"]; [py "Foo"; []]].
Proof.
  apply (read_then_write [py "Name"; py "Symbol"] [[py "Acme"; py "ACM.L"]; [py "Foo"; []]]).
  - repeat constructor; rewrite ?elem_of_cons, ?elem_of_nil; by vm_compute; intuition.
  - done.
  - by repeat constructor.
Defined.

(** X17: written under at least one field name and read back, the rows
    come back with the same header and, under every field name, the cell
    that was written: the text of the cell, or the empty cell for a
    missing key and for [None]. *)
Theorem write_then_read (fieldnames : list str) (rows : list Compare.row) :
  fieldnames ≠ [] →
  (read_csv (write_csv fieldnames rows)).1 = fieldnames
  ∧ length (read_csv (write_csv fieldnames rows)).2 = length rows
  ∧ cells fieldnames <$> (read_csv (write_csv fieldnames rows)).2
    = cells fieldnames <$> rows.
Proof.
  intros Hne. rewrite RefreshFacts.read_csv_write_csv by done. cbn [fst snd].
  split; [done|]. split; [by rewrite length_fmap|].
  rewrite <- list_fmap_compose. apply Forall_fmap_ext_1, Forall_forall.
  intros o _. unfold compose, cells at 1 3.
  apply Forall_fmap_ext_1, Forall_forall. intros k Hk.
  by rewrite RefreshFacts.lookup_read_back, decide_True.
Qed.

Lemma write_then_read_witness :
  (read_csv (write_csv [py "Name"] [Examples.candidate "Acme" "ACM.L"])).1 = [py "Name"]
  ∧ length (read_csv (write_csv [py "Name"] [Examples.candidate "Acme" "ACM.L"])).2
    = length [Examples.candidate "Acme" "ACM.L"]
  ∧ cells [py "Name"] <$> (read_csv (write_csv [py "Name"] [Examples.candidate "Acme" "ACM.L"])).2
    = cells [py "Name"] <$> [Examples.candidate "Acme" "ACM.L"].
Proof.
  apply (write_then_read [py "Name"] [Examples.candidate "Acme" "ACM.L"]). done.
Defined.

(** ** The refresh run, column by column *)

Module CarryFacts.
Import Compare Refresh Invariants.

Section Facts.
Context {rt : Runtime}.

(** The columns appended keep the order of their first occurrence. *)
Lemma append_new_sublist (extra acc : list str) :
  ∃ new, foldl append_new acc extra = acc ++ new ∧ new `sublist_of` extra.
Proof.
  revert acc. induction extra as [|x extra IH]; intros acc.
  - exists []. by rewrite app_nil_r.
  - cbn [foldl]. unfold append_new at 2. case_bool_decide.
    + destruct (IH acc) as (new & -> & Hsub). exists new.
      split; [done|]. by apply sublist_cons.
    + destruct (IH (acc ++ [x])) as (new & -> & Hsub). exists (x :: new).
      split; [by rewrite <- app_assoc|]. by apply sublist_skip.
Qed.

Lemma filter_first_occurrences (P : str → Prop) `{!∀ x, Decision (P x)} (l : list str) :
  filter P (first_occurrences l) = first_occurrences (filter P l).
Proof.
  induction l as [|x l IH]; [done|]. cbn [first_occurrences].
  destruct (decide (P x)) as [Hx|Hx].
  - rewrite !filter_cons_True by done. cbn [first_occurrences]. f_equal.
    rewrite <- IH, !list_filter_filter. apply list_filter_iff. tauto.
  - rewrite !filter_cons_False by done. rewrite <- IH.
    apply list_filter_filter_l. by intros y Hy ->.
Qed.

(** The loop that builds [out_fields] appends the columns it does not
    have yet, in the order of their first occurrence. *)
Lemma foldl_append_new (extra acc : list str) :
  foldl append_new acc extra
  = acc ++ first_occurrences (filter (λ c, c ∉ acc) extra).
Proof.
  revert acc. induction extra as [|x extra IH]; intros acc.
  - by rewrite app_nil_r.
  - cbn [foldl]. unfold append_new at 2. case_bool_decide as Hx.
    + rewrite IH. by rewrite filter_cons_False by (by intros ?).
    + rewrite IH, filter_cons_True by done. cbn [first_occurrences].
      rewrite <- app_assoc. cbn [app]. do 2 f_equal.
      rewrite filter_first_occurrences, list_filter_filter. f_equal.
      apply list_filter_iff. intros c.
      rewrite elem_of_app, list_elem_of_singleton. tauto.
Qed.

Lemma NoDup_first_occurrences (l : list str) : NoDup (first_occurrences l).
Proof.
  induction l as [|x l IH]; [constructor|]. cbn [first_occurrences].
  constructor; [|by apply NoDup_filter].
  rewrite list_elem_of_filter. by intros [? _].
Qed.

Lemma elem_of_first_occurrences (l : list str) (c : str) :
  c ∈ first_occurrences l ↔ c ∈ l.
Proof.
  induction l as [|x l IH]; [done|]. cbn [first_occurrences].
  rewrite !elem_of_cons, list_elem_of_filter, IH.
  destruct (decide (c = x)); tauto.
Qed.

(** [annotations] after the loop: under a key that is not empty, the
    annotation of the first row with that key. *)
Lemma lookup_foldl_annotate (extra : list str) (rows : list row) (ann0 : gmap (str * str) (gmap str str)) (k : str * str) :
  foldl (annotate extra) ann0 rows !! k
  = match ann0 !! k with
    | Some a => Some a
    | None =>
        if bool_decide (k = ([], [])) then None
        else annotation extra <$> List.find (λ m, bool_decide (row_key m = k)) rows
    end.
Proof.
  revert ann0. induction rows as [|m rows IH]; intros ann0.
  - cbn [foldl List.find]. destruct (ann0 !! k); [done|]. by case_bool_decide.
  - cbn [foldl List.find]. rewrite IH. unfold annotate.
    destruct (bool_decide (row_key m = ([], []))) eqn:Em.
    + apply bool_decide_eq_true in Em. destruct (ann0 !! k); [done|].
      case_bool_decide as Hk; [done|].
      rewrite bool_decide_eq_false_2; [done|]. intros Hmk. apply Hk. by rewrite <- Hmk.
    + apply bool_decide_eq_false in Em.
      destruct (ann0 !! row_key m) as [a|] eqn:Ea.
      * destruct (ann0 !! k) as [b|] eqn:Eb; [done|].
        case_bool_decide as Hk; [done|].
        rewrite bool_decide_eq_false_2; [done|]. intros Hmk.
        rewrite Hmk, Eb in Ea. done.
      * destruct (decide (row_key m = k)) as [Hmk|Hmk].
        -- rewrite Hmk, lookup_insert_eq. rewrite Hmk in Ea. rewrite Ea.
           rewrite bool_decide_eq_false_2 by (by rewrite <- Hmk).
           by rewrite bool_decide_eq_true_2.
        -- rewrite lookup_insert_ne by done. destruct (ann0 !! k); [done|].
           by rewrite (bool_decide_eq_false_2 (row_key m = k)).
Qed.

(** Without extra columns the output row is the input row. *)
Lemma out_row_no_extra (ann : gmap (str * str) (gmap str str)) (r : row) :
  taken_from [] ann → out_row [] ann r = r.
Proof.
  intros Hann. unfold out_row.
  destruct (ann !! row_key r) as [a|] eqn:Ea; [|by destruct r].
  destruct (Hann _ _ Ea) as (_ & m & _ & ->).
  change (annotation [] m) with (∅ : gmap str str).
  rewrite bool_decide_eq_false_2 by (by intros []). by destruct r.
Qed.

Lemma cells_base_out_row (base extra : list str) (ann : gmap (str * str) (gmap str str)) (r : row) :
  taken_from extra ann → (∀ c, c ∈ extra → c ∉ base) →
  cells base (out_row extra ann r) = cells base r.
Proof.
  intros Hann Hextra. unfold cells. apply Forall_fmap_ext_1, Forall_forall.
  intros k Hk. apply RefreshFacts.out_row_base; [done|].
  intros Hke. by apply (Hextra k).
Qed.

End Facts.

End CarryFacts.

(** X18: without a previous output file, and also with one that brings
    no column of its own, the refresh run writes what the comparison run
    writes: the rows that are not found, under the columns of the
    candidate file. *)
Theorem refresh_without_annotations `{rt : Runtime} (market : list (list str)) (missing : option (list (list str))) (data : list Compare.entry) :
  (∀ f c, missing = Some f → c ∈ (read_csv f).1 →
          c = [] ∨ c ∈ (read_csv market).1) →
  Refresh.main market missing data = CompareMain.main market data.
Proof.
  intros Hcols.
  destruct (read_csv market) as [base market_rows] eqn:Hmarket.
  destruct (match missing with Some f => read_csv f | None => ([], []) end)
    as [anno_fields anno_rows] eqn:Hmissing.
  rewrite (RefreshFacts.main_unfold market missing data _ _ _ _ Hmarket Hmissing).
  unfold CompareMain.main. rewrite Hmarket.
  pose proof (MatchFacts.main_loop_missing market_rows
                (Compare.load_existing_companies data)) as Hloop.
  destruct (Compare.main_loop market_rows (Compare.load_existing_companies data))
    as [missing_rows matched]. cbn [fst] in Hloop. subst missing_rows.
  assert (filter (λ c, c ≠ [] ∧ c ∉ base) anno_fields = []) as ->.
  { apply RefreshFacts.filter_none. intros c Hc [Hne Hnb].
    destruct missing as [f|].
    - destruct (Hcols f c eq_refl) as [?|?]; [by rewrite Hmissing|done|done].
    - injection Hmissing as <- <-. by apply elem_of_nil in Hc. }
  cbn [foldl]. f_equal.
  rewrite <- (list_fmap_id (filter _ market_rows)) at 2.
  apply Forall_fmap_ext_1, Forall_forall. intros r _.
  apply CarryFacts.out_row_no_extra, RefreshFacts.annotations_taken_from.
Qed.

Lemma refresh_without_annotations_witness :
  Refresh.main (rt := AsciiTables.runtime)
    [[py "Name"; py "Symbol"]; [py "Acme"; py "ACM.L"]; [py "Bbva SA"; []]]
    None [Examples.reference "BBVA"]
  = CompareMain.main (rt := AsciiTables.runtime)
      [[py "Name"; py "Symbol"]; [py "Acme"; py "ACM.L"]; [py "Bbva SA"; []]]
      [Examples.reference "BBVA"].
Proof.
  apply (refresh_without_annotations (rt := AsciiTables.runtime)).
  intros f c Hf. discriminate Hf.
Defined.

(** X19: the header the refresh run writes is the header of the
    candidate file followed by the annotation columns: the field names
    of the previous output that are not empty and not columns of the
    candidate file, each one once, in the order of their first
    occurrence there. *)
Theorem refresh_header `{rt : Runtime} (market : list (list str)) (missing : option (list (list str))) (data : list Compare.entry) :
  head (Refresh.main market missing data)
  = Some
      ((read_csv market).1
       ++ Invariants.first_occurrences
            (filter (λ c, c ≠ [] ∧ c ∉ (read_csv market).1)
               (match missing with Some f => read_csv f | None => ([], []) end).1))
  ∧ NoDup
      (Invariants.first_occurrences
         (filter (λ c, c ≠ [] ∧ c ∉ (read_csv market).1)
            (match missing with Some f => read_csv f | None => ([], []) end).1))
  ∧ ∀ c, c ∈ Invariants.first_occurrences
               (filter (λ c, c ≠ [] ∧ c ∉ (read_csv market).1)
                  (match missing with Some f => read_csv f | None => ([], []) end).1)
         ↔ c ∈ (match missing with Some f => read_csv f | None => ([], []) end).1
           ∧ c ≠ [] ∧ c ∉ (read_csv market).1.
Proof.
  destruct (read_csv market) as [base market_rows] eqn:Hmarket.
  destruct (match missing with Some f => read_csv f | None => ([], []) end)
    as [anno_fields anno_rows] eqn:Hmissing.
  rewrite (RefreshFacts.main_unfold market missing data _ _ _ _ Hmarket Hmissing).
  cbn [fst]. unfold write_csv. cbn [head].
  set (extra := filter (λ c, c ≠ [] ∧ c ∉ base) anno_fields).
  split; [|split].
  - rewrite CarryFacts.foldl_append_new. do 3 f_equal.
    apply RefreshFacts.filter_all. intros c Hc.
    by apply list_elem_of_filter in Hc as [[_ ?] _].
  - apply CarryFacts.NoDup_first_occurrences.
  - intros c. rewrite CarryFacts.elem_of_first_occurrences.
    unfold extra. rewrite list_elem_of_filter. tauto.
Qed.

(** The previous header [Note; Who; Name; Note] after the candidate
    header [Name; Symbol]: [Note] once, before [Who]. *)
Example refresh_header_order :
  head (Refresh.main (rt := AsciiTables.runtime)
          [[py "Name"; py "Symbol"]; [py "Acme"; py "ACM.L"]]
          (Some [[py "Note"; py "Who"; py "Name"; py "Note"]])
          [])
  = Some [py "Name"; py "Symbol"; py "Note"; py "Who"].
Proof. vm_compute. reflexivity. Qed.

(** X20: under the columns of the candidate file the refresh run writes
    the rows that are not found, as they are and in the order of the
    input, one record each: rows that are found are left out whether
    they were annotated or not, and no annotation changes a cell of the
    candidate file. *)
Theorem refresh_keeps_base_cells `{rt : Runtime} (market : list (list str)) (missing : option (list (list str))) (data : list Compare.entry) :
  take (length (read_csv market).1) <$> tail (Refresh.main market missing data)
  = cells (read_csv market).1
    <$> filter
          (λ r, Compare.row_exists r (Compare.load_existing_companies data) = false)
          (read_csv market).2.
Proof.
  destruct (read_csv market) as [base market_rows] eqn:Hmarket.
  destruct (match missing with Some f => read_csv f | None => ([], []) end)
    as [anno_fields anno_rows] eqn:Hmissing.
  rewrite (RefreshFacts.main_unfold market missing data _ _ _ _ Hmarket Hmissing).
  cbn [fst snd]. unfold write_csv. cbn [tail].
  set (extra := filter (λ c, c ≠ [] ∧ c ∉ base) anno_fields).
  destruct (RefreshFacts.append_new_app extra base) as (new & -> & _).
  rewrite <- !list_fmap_compose. apply Forall_fmap_ext_1, Forall_forall.
  intros r _. unfold compose. unfold cells at 1. rewrite fmap_app.
  rewrite take_app_length' by by rewrite length_fmap.
  apply CarryFacts.cells_base_out_row; [apply RefreshFacts.annotations_taken_from|].
  intros c Hc. by apply list_elem_of_filter in Hc as [[_ ?] _].
Qed.

(** X21: the cell of an output row under an annotation column is
    carried over from the first row of the previous output that has the
    key of the row, and is empty when the key is the empty key or when
    no previous row has it. *)
Theorem annotation_carried_over `{rt : Runtime} (extra_cols : list str) (anno_rows : list Compare.row) (r : Compare.row) (col : str) :
  col ∈ extra_cols →
  Compare.fields r !! col = None →
  Compare.get_or_empty
    (Refresh.out_row extra_cols (foldl (Refresh.annotate extra_cols) ∅ anno_rows) r)
    col
  = if bool_decide (Refresh.row_key r = ([], [])) then []
    else match List.find (λ m, bool_decide (Refresh.row_key m = Refresh.row_key r))
                 anno_rows with
         | Some m => Compare.get_or_empty m col
         | None => []
         end.
Proof.
  intros Hcol Hr.
  rewrite RefreshFacts.out_row_extra;
    [|apply RefreshFacts.annotations_taken_from|done|done].
  rewrite CarryFacts.lookup_foldl_annotate, lookup_empty.
  case_bool_decide; [done|].
  destruct (List.find _ anno_rows) as [m|]; [|done].
  cbn [fmap option_fmap option_map].
  by rewrite RefreshFacts.lookup_annotation, decide_True.
Qed.

Lemma annotation_carried_over_witness :
  Compare.get_or_empty
    (Refresh.out_row (rt := AsciiTables.runtime) [py "Note"]
       (foldl (Refresh.annotate (rt := AsciiTables.runtime) [py "Note"]) ∅
          [dict_row [py "Name"; py "Note"] [py "Acme Ltd"; py "first"];
           dict_row [py "Name"; py "Note"] [py "ACME"; py "second"]])
       (Examples.candidate "Acme" ""))
    (py "Note")
  = py "first".
Proof.
  rewrite (annotation_carried_over (rt := AsciiTables.runtime) [py "Note"]).
  - vm_compute. reflexivity.
  - by left.
  - vm_compute. reflexivity.
Defined.

(** ** Ticker roots, acronyms and the comparison run *)

Module KeyFacts.
Import Compare.

Section Facts.
Context {rt : Runtime}.

Lemma before_id (cls : char → bool) (s : str) :
  forallb (λ c, negb (cls c)) s = true → before cls s = s.
Proof.
  induction s as [|c s IH]; [done|]. cbn [forallb before].
  intros [Hc Hs]%andb_true_iff. apply negb_true_iff in Hc. rewrite Hc.
  by rewrite IH.
Qed.

Lemma root_no_sep (s : str) :
  forallb (λ c, negb (symbol_sep c)) (before (N.eqb DASH) (before symbol_sep s)) = true.
Proof. apply SymbolBaseFacts.before_forallb, SymbolBaseFacts.before_avoids. Qed.

Lemma symbol_base_root (symbol : str) :
  forallb (λ c, negb (symbol_sep c)) (symbol_base symbol) = true
  ∧ forallb (λ c, negb (DASH =? c)) (symbol_base symbol) = true
  ∧ forallb (λ c, negb (isspace c)) (symbol_base symbol) = true.
Proof.
  unfold symbol_base. destruct (strip symbol) as [|c x]; [done|].
  split; [apply root_no_sep|]. split; [apply SymbolBaseFacts.before_avoids|].
  apply SymbolBaseFacts.root_nospace.
Qed.

Lemma symbol_base_fixed (symbol : str) :
  symbol_base (symbol_base symbol) = symbol_base symbol.
Proof.
  destruct (symbol_base_root symbol) as (Hsep & Hdash & Hspace).
  unfold symbol_base at 1. rewrite SymbolBaseFacts.strip_nospace by done.
  destruct (symbol_base symbol) as [|c y] eqn:E; [done|].
  rewrite (before_id symbol_sep) by done. by rewrite before_id.
Qed.

(** One character of the acronym for each token that counts. *)
Lemma length_acronym (tokens : list str) :
  length (acronym tokens)
  = length (filter (λ tok, (tok ≠ [] ∧ str_isdigit tok = false) ∧ tok ∉ STOPWORDS)
              tokens).
Proof.
  induction tokens as [|tok tokens IH]; [done|].
  unfold acronym in *. cbn [flat_map]. rewrite length_app, IH.
  destruct tok as [|c tok].
  - rewrite filter_cons_False by (by intros [[? _] _]). done.
  - destruct (str_isdigit (c :: tok)) eqn:Ed.
    + rewrite filter_cons_False
        by (intros [[_ H] _]; rewrite Ed in H; discriminate H).
      done.
    + cbn [orb]. case_bool_decide as Hs.
      * rewrite filter_cons_False by (intros [_ H]; exact (H Hs)). done.
      * rewrite filter_cons_True by (split; [split; [discriminate|assumption]|assumption]).
        done.
Qed.

Lemma main_loop_lines (header : list str) (lines : list (list str)) (idx : index) :
  NoDup header →
  Forall (λ line, length line = length header) lines →
  cells header
    <$> filter (λ r, row_exists r idx = false) (dict_row header <$> lines)
  = filter (λ line, row_exists (dict_row header line) idx = false) lines.
Proof.
  intros Hnd. induction 1 as [|line lines Hlen _ IH]; [done|].
  rewrite fmap_cons.
  destruct (row_exists (dict_row header line) idx) eqn:E.
  - rewrite !filter_cons_False by (by rewrite E). apply IH.
  - rewrite !filter_cons_True by done. rewrite fmap_cons, IH. f_equal.
    rewrite CsvFacts.cells_dict_row by done.
    rewrite Hlen, Nat.sub_diag. cbn [replicate]. rewrite app_nil_r.
    rewrite <- Hlen. apply firstn_all.
Qed.

End Facts.

End KeyFacts.

(** X22: the ticker root of the comparison script holds no [.], [:],
    [/], [-] and no white space, and taking the root of a root changes
    nothing. *)
Theorem symbol_base_idempotent `{rt : Runtime} (symbol : str) :
  Compare.symbol_base (Compare.symbol_base symbol) = Compare.symbol_base symbol
  ∧ Forall (λ c, Compare.symbol_sep c = false ∧ c ≠ DASH ∧ isspace c = false)
      (Compare.symbol_base symbol).
Proof.
  split; [apply KeyFacts.symbol_base_fixed|].
  destruct (KeyFacts.symbol_base_root symbol) as (Hsep & Hdash & Hspace).
  rewrite forallb_forall in Hsep, Hdash, Hspace.
  apply Forall_forall. intros c Hc%list_elem_of_In.
  specialize (Hsep c Hc). specialize (Hdash c Hc). specialize (Hspace c Hc).
  apply negb_true_iff in Hsep, Hdash, Hspace.
  split; [done|]. split; [|done]. intros ->. by rewrite N.eqb_refl in Hdash.
Qed.

(** X23: rule 4 only fires for a name with at least three tokens that
    are neither numbers nor stop words: the acronym has one character
    for each such token, and none for the others. *)
Theorem rule_acronym_needs_three_tokens `{rt : Runtime} (toks : list str) (idx : Compare.index) :
  length (Compare.acronym toks)
  = length (filter (λ tok, (tok ≠ [] ∧ str_isdigit tok = false)
                           ∧ tok ∉ Compare.STOPWORDS) toks)
  ∧ (Compare.rule_acronym toks idx = true →
     (3 ≤ length (filter (λ tok, (tok ≠ [] ∧ str_isdigit tok = false)
                                 ∧ tok ∉ Compare.STOPWORDS) toks))%nat).
Proof.
  split; [apply KeyFacts.length_acronym|].
  unfold Compare.rule_acronym. intros [Hlen _]%andb_true_iff.
  apply bool_decide_eq_true in Hlen. by rewrite <- KeyFacts.length_acronym.
Qed.

Lemma rule_acronym_needs_three_tokens_witness :
  (3 ≤ length (filter (λ tok, (tok ≠ [] ∧ str_isdigit (rt := AsciiTables.runtime) tok = false)
                              ∧ tok ∉ Compare.STOPWORDS)
                 (Examples.tokens_of "Banco de Bilbao Vizcaya 2024")))%nat.
Proof.
  destruct (rule_acronym_needs_three_tokens (rt := AsciiTables.runtime)
              (Examples.tokens_of "Banco de Bilbao Vizcaya 2024")
              (Examples.index_of ["BBV"]%string)) as [_ H].
  apply H. vm_compute. reflexivity.
Defined.

(** X24: a token is a key of the inverted index exactly when it is one of
    the stripped tokens of a reference record with a name; this is what
    rules 2, 3 and 4 look a token up against. *)
Theorem token_in_index `{rt : Runtime} (data : list Compare.entry) (tok : str) :
  is_Some (Compare.token_index (Compare.load_existing_companies data) !! tok)
  ↔ ∃ n, Compare.Dict (Some n) ∈ data
         ∧ Compare.missing_or_blank (Compare.Dict (Some n)) = false
         ∧ tok ∈ Compare.strip_suffix (Compare.clean_tokens (Compare.to_str n)).
Proof.
  destruct (IndexContents.load_contents data) as (_ & _ & Ht). split.
  - intros [keys Hkeys].
    destruct (set_choose_L keys (IndexContents.load_nonempty_keys data tok keys Hkeys))
      as [key Hkey].
    destruct (proj1 (Ht tok key)) as (e & name & Hin & (n & -> & Hb & ->) & Htok & _);
      [by exists keys|].
    by exists n.
  - intros (n & Hin & Hb & Htok).
    destruct (proj2 (Ht tok (Compare.norm_str (Compare.clean_tokens (Compare.to_str n)))))
      as (keys & -> & _); [|done].
    exists (Compare.Dict (Some n)), (Compare.to_str n).
    split; [done|]. split; [by exists n|done].
Qed.

(** X25: on a candidate file with distinct, and at least one, field
    names whose records all have as many cells as the header, the
    comparison run writes the header and then the records of the rows
    that are not found, as they are and in the order of the input. *)
Theorem compare_main_keeps_lines `{rt : Runtime} (header : list str) (lines : list (list str)) (data : list Compare.entry) :
  NoDup header → header ≠ [] →
  Forall (λ line, length line = length header) lines →
  CompareMain.main (header :: lines) data
  = header
    :: filter
         (λ line, Compare.row_exists (dict_row header line)
                    (Compare.load_existing_companies data) = false)
         lines.
Proof.
  intros Hnd Hne Hlines. unfold CompareMain.main. cbn [read_csv].
  assert (filter (λ line : list str, line ≠ []) lines = lines) as ->.
  { apply RefreshFacts.filter_all. intros line Hin ->.
    rewrite Forall_forall in Hlines. specialize (Hlines _ Hin).
    destruct header; [done|discriminate Hlines]. }
  pose proof (MatchFacts.main_loop_missing (dict_row header <$> lines)
                (Compare.load_existing_companies data)) as Hloop.
  destruct (Compare.main_loop _ (Compare.load_existing_companies data))
    as [missing matched]. cbn [fst] in Hloop. subst missing.
  unfold write_csv. f_equal. by apply KeyFacts.main_loop_lines.
Qed.

Lemma compare_main_keeps_lines_witness :
  CompareMain.main (rt := AsciiTables.runtime)
    ([py "Name"; py "Symbol"] :: [[py "Acme"; py "ACM.L"]; [py "Bbva SA"; []]])
    [Examples.reference "BBVA"]
  = [py "Name"; py "Symbol"]
    :: filter
         (λ line, Compare.row_exists (rt := AsciiTables.runtime)
                    (dict_row [py "Name"; py "Symbol"] line)
                    (Compare.load_existing_companies (rt := AsciiTables.runtime)
                       [Examples.reference "BBVA"]) = false)
         [[py "Acme"; py "ACM.L"]; [py "Bbva SA"; []]].
Proof.
  apply (compare_main_keeps_lines (rt := AsciiTables.runtime)).
  - repeat constructor; rewrite ?elem_of_cons, ?elem_of_nil; by vm_compute; intuition.
  - done.
  - by repeat constructor.
Defined.
